(** * Connect4 solver: negamax, solve, getBestMove and the opening book

    A shallow embedding of [src/brain/Solver.cpp] and
    [src/brain/OpeningBook.hpp].  C++ [int] values are modelled as [Z];
    [/] and [%] on [int] are the truncating [Z.quot] and [Z.rem]; the
    64-bit move and board masks are non-negative [Z] combined with
    [Z.land]; the byte stored in a table slot is a [Z] reduced modulo 256. *)

From Stdlib Require Import ZArith List Bool Lia Permutation.
From stdpp Require Import base gmap.
Import ListNotations.
Local Open Scope Z_scope.

(** ** Machine arithmetic *)

(** Conversion of an [int] to the [uint8_t] held by a table slot. *)
Definition to_uint8 (v : Z) : Z := v mod 256.

(** ** Column exploration order ([Solver::Solver]) *)

(** The value the constructor writes to [columnOrder[i]]:
    [WIDTH / 2 + (1 - 2 * (i % 2)) * (i + 1) / 2]; in C++ the product is
    formed first and then divided by 2, truncating toward zero. *)
Definition columnOrder_at (W i : Z) : Z :=
  Z.quot W 2 + Z.quot ((1 - 2 * Z.rem i 2) * (i + 1)) 2.

(** The array after the constructor's loop [for (i = 0; i < WIDTH; i++)]. *)
Definition columnOrder (W : Z) : list Z :=
  map (fun i => columnOrder_at W (Z.of_nat i)) (seq 0 (Z.to_nat W)).

(** The formula as the specification words it:
    [W/2 + (1 - 2 (i mod 2)) * ceil ((i+1)/2)]. *)
Definition ceil_half (n : Z) : Z := (n + 1) / 2.

Definition spec_columnOrder_at (W i : Z) : Z :=
  W / 2 + (1 - 2 * (i mod 2)) * ceil_half (i + 1).

(** ** Score encoding in the transposition table ([Solver::negamax]) *)

Section Encoding.
Variables MIN_SCORE MAX_SCORE : Z.

(** Argument of [transTable.put] at a beta cut-off (line 102). *)
Definition lower_bound_code (score : Z) : Z :=
  score + MAX_SCORE - 2 * MIN_SCORE + 2.

(** Argument of [transTable.put] after the move loop (line 109). *)
Definition upper_bound_code (alpha : Z) : Z :=
  alpha - MIN_SCORE + 1.

(** The test of line 66 on a byte read back from the table. *)
Definition is_lower_bound (val : Z) : bool :=
  Z.ltb (MAX_SCORE - MIN_SCORE + 1) val.

(** Decoding of a lower bound (line 67) and of an upper bound (line 73). *)
Definition decode_lower (val : Z) : Z := val + 2 * MIN_SCORE - MAX_SCORE - 2.
Definition decode_upper (val : Z) : Z := val + MIN_SCORE - 1.
End Encoding.

(** ** The position interface

    [Position.hpp] is not part of the sources under study: the solver is
    embedded over the operations it calls on a position, and over the
    four constants it reads from the class. *)
Class PositionAPI := {
  Position : Type;
  WIDTH : Z;
  HEIGHT : Z;
  MIN_SCORE : Z;
  MAX_SCORE : Z;
  nbMoves : Position -> Z;
  canWinNext : Position -> bool;
  possible : Position -> Z;
  possibleNonLosingMoves : Position -> Z;
  key : Position -> Z;
  key3 : Position -> Z;
  moveScore : Position -> Z -> Z;
  play : Position -> Z -> Position;
  column_mask : Z -> Z
}.

(** ** Transposition table *)

(** Modelled from the spec: the transposition table
    ([TranspositionTable.hpp] is missing).  It maps a position key to one
    stored byte, 0 meaning absent; [put] overwrites the entry of its key. *)
Definition TT_get (t : gmap Z Z) (k : Z) : Z := default 0 (t !! k).

Definition TT_put (t : gmap Z Z) (k v : Z) : gmap Z Z := <[k := to_uint8 v]> t.

(** ** Opening book ([OpeningBook.hpp]) *)

(** What [ifs.read] sees of a file: the bytes not yet consumed and the
    stream's fail bit. *)
Record ifstream := { is_data : list Byte.byte; is_fail : bool }.

(** [ifs.read(buf, n)]: a failed stream reads nothing; a short file
    delivers what is left and sets the fail bit. *)
Definition ifs_read (n : nat) (s : ifstream) : list Byte.byte * ifstream :=
  if is_fail s then ([], s)
  else if (length (is_data s) <? n)%nat
       then (is_data s, {| is_data := []; is_fail := true |})
       else (firstn n (is_data s), {| is_data := skipn n (is_data s); is_fail := false |}).

(** Value of a [char] that holds byte [b], after promotion to [int]
    ([char] is signed on the platforms the solver targets). *)
Definition char_to_int (b : Byte.byte) : Z :=
  let n := Z.of_N (Byte.to_N b) in
  if n <? 128 then n else n - 256.

(** [ifs.read(&c, 1)]: the [char] read, [None] when nothing was stored
    into the variable. *)
Definition read_char (s : ifstream) : option Z * ifstream :=
  match ifs_read 1 s with
  | (b :: _, s') => (Some (char_to_int b), s')
  | ([], s') => (None, s')
  end.

(** The table a loaded book owns: its key width, its size exponent and
    the two raw arrays filled from the file. *)
Record BookTable := {
  bt_key_bytes : Z;
  bt_log_size : Z;
  bt_keys : list Byte.byte;
  bt_values : list Byte.byte
}.

(** State of the owning pointer [T]: null, pointing to a live table, or
    left dangling by [delete T]. *)
Inductive TablePtr :=
| TNull
| TLive (tbl : BookTable)
| TDangling.

Record OpeningBook := {
  T : TablePtr;
  width : Z;
  height : Z;
  depth : Z
}.

(** [OpeningBook(width, height)]: the empty opening book. *)
Definition OpeningBook_empty (w h : Z) : OpeningBook :=
  {| T := TNull; width := w; height := h; depth := -1 |}.

(** What [load] writes on [std::cerr]; [found] is [None] when the read
    itself failed and the variable printed was never assigned. *)
Inductive LoadMsg :=
| UnableToOpen
| InvalidWidth (found : option Z) (expected : Z)
| InvalidHeight (found : option Z) (expected : Z)
| InvalidDepth (found : option Z)
| InvalidKeySize (found : option Z)
| InvalidValueSize (found : option Z)
| InvalidLogSize (found : option Z)
| UnableToLoadData
| InvalidKeyBytes (key_bytes : Z)
| UnimplementedSize (log_size : Z)
| UnableToInitialize.

(** [delete T]: deleting a null pointer does nothing, deleting a live
    table leaves the pointer dangling, deleting twice is undefined. *)
Definition delete_ptr (p : TablePtr) : option TablePtr :=
  match p with
  | TNull => Some TNull
  | TLive _ => Some TDangling
  | TDangling => None
  end.

(** The two [initTranspositionTable] overloads: only key sizes 1, 2, 4
    and size exponents 14, 21..27 are instantiated.  The result tells
    whether a table was allocated; on the [default] branches nothing is
    and one line goes to [std::cerr], for the key size first. *)
Definition supported_log_size (log_size : Z) : bool :=
  (log_size =? 14) || ((21 <=? log_size) && (log_size <=? 27)).

Definition supported_key_bytes (key_bytes : Z) : bool :=
  (key_bytes =? 1) || (key_bytes =? 2) || (key_bytes =? 4).

Definition initTranspositionTable (key_bytes log_size : Z)
  : bool * list LoadMsg :=
  if supported_key_bytes key_bytes then
    if supported_log_size log_size then (true, [])
    else (false, [UnimplementedSize log_size])
  else (false, [InvalidKeyBytes key_bytes]).

(** The storage engine behind a live book table is not part of the
    sources: its slot count for a size exponent ([getSize]) and its
    lookup by compact key ([get]) are taken as given. *)
Class BookTableAPI := {
  table_size : Z -> nat;
  table_get : BookTable -> Z -> Z
}.

Section OpeningBookOps.
Context {BT : BookTableAPI}.

(** The tail of [load], once the six header bytes passed their checks
    (lines 146-156): allocate the table, fill both arrays, and set the
    depth in case of success only. *)
Definition load_data (b : OpeningBook) (s : ifstream)
           (_depth key_bytes value_bytes log_size : Z)
  : OpeningBook * list LoadMsg :=
  let '(allocated, reported) := initTranspositionTable key_bytes log_size in
  if allocated then
    let '(ks, s1) := ifs_read (table_size log_size * Z.to_nat key_bytes) s in
    let '(vs, s2) := ifs_read (table_size log_size * Z.to_nat value_bytes) s1 in
    let tbl := {| bt_key_bytes := key_bytes; bt_log_size := log_size;
                  bt_keys := ks; bt_values := vs |} in
    if is_fail s2
    then ({| T := TLive tbl; width := width b; height := height b; depth := -1 |},
          [UnableToLoadData])
    else ({| T := TLive tbl; width := width b; height := height b; depth := _depth |},
          [])
  else ({| T := TNull; width := width b; height := height b; depth := -1 |},
        reported ++ [UnableToInitialize]).

(** [load(filename)].  [file] is the content found under the file name,
    [None] when it cannot be opened.  The result is [None] when the
    call has undefined behaviour (a second [delete] of the same table);
    otherwise the book after the call and the lines written on
    [std::cerr].  A header check fails when the read failed or when the
    [char] read violates the comparison of the source.  The summary
    printed on [std::cout] under [show] changes nothing and is left out. *)
Definition load (b : OpeningBook) (file : option (list Byte.byte))
  : option (OpeningBook * list LoadMsg) :=
  match delete_ptr (T b) with
  | None => None
  | Some p =>
    let b0 := {| T := p; width := width b; height := height b; depth := -1 |} in
    let bad (c : option Z) (violated : Z -> bool) : bool :=
      match c with None => true | Some v => violated v end in
    Some
      match file with
      | None => (b0, [UnableToOpen])
      | Some data =>
        let s := {| is_data := data; is_fail := false |} in
        let '(_width, s) := read_char s in
        if bad _width (fun v => negb (v =? width b))
        then (b0, [InvalidWidth _width (width b)]) else
        let '(_height, s) := read_char s in
        if bad _height (fun v => negb (v =? height b))
        then (b0, [InvalidHeight _height (height b)]) else
        let '(_depth, s) := read_char s in
        if bad _depth (fun v => v >? width b * height b)
        then (b0, [InvalidDepth _depth]) else
        let '(key_bytes, s) := read_char s in
        if bad key_bytes (fun v => v >? 8)
        then (b0, [InvalidKeySize key_bytes]) else
        let '(value_bytes, s) := read_char s in
        if bad value_bytes (fun v => negb (v =? 1))
        then (b0, [InvalidValueSize value_bytes]) else
        let '(log_size, s) := read_char s in
        if bad log_size (fun v => v >? 40)
        then (b0, [InvalidLogSize log_size]) else
        load_data b0 s (default 0 _depth) (default 0 key_bytes)
                  (default 0 value_bytes) (default 0 log_size)
      end
  end.

(** [get(P)]: a miss beyond the stored depth, else the byte the table
    holds for the compact key; reading through a dangling pointer is
    undefined ([None]). *)
Definition OpeningBook_get {PA : PositionAPI} (b : OpeningBook) (P : Position)
  : option Z :=
  if nbMoves P >? depth b then Some 0
  else match T b with
       | TNull => Some 0
       | TLive tbl => Some (table_get tbl (key3 P))
       | TDangling => None
       end.
End OpeningBookOps.

(** ** Move sorter and move chooser *)

(** Modelled from the spec: the move sorter ([MoveSorter.hpp] is missing),
    a bounded container visited in descending order of the ordering
    heuristic, where among equal scores the move added last is visited
    first.  The entries are kept in ascending order of score; [add] puts a
    new entry above the entries that do not score more. *)
Fixpoint MoveSorter_add (entries : list (Z * Z)) (move score : Z) : list (Z * Z) :=
  match entries with
  | [] => [(move, score)]
  | e :: rest =>
    if snd e >? score then (move, score) :: e :: rest
    else e :: MoveSorter_add rest move score
  end.

(** The sequence of moves the successive calls of [getNext] deliver. *)
Definition MoveSorter_visit (entries : list (Z * Z)) : list Z :=
  map fst (rev entries).

(** Modelled from the spec: the move chooser ([MoveChooser.hpp] is
    missing), an arg-max over the recorded (move, score) pairs.  Which of
    several moves of maximal score it keeps is not specified; here it is
    the one recorded first.  [None] before anything is recorded. *)
Fixpoint MoveChooser_best (recorded : list (Z * Z)) : option (Z * Z) :=
  match recorded with
  | [] => None
  | (m, s) :: rest =>
    match MoveChooser_best rest with
    | Some (m', s') => if s' >? s then Some (m', s') else Some (m, s)
    | None => Some (m, s)
    end
  end.

(** ** The solver ([Solver.cpp]) *)

(** Outcome of one narrowing of the search window: the call returns at
    once with a value, or goes on with a window. *)
Inductive narrowed :=
| Cut (v : Z)
| Window (alpha beta : Z).

(** [if (alpha < min) { alpha = min; if (alpha >= beta) return alpha; }] *)
Definition raise_alpha (min alpha beta : Z) : narrowed :=
  if alpha <? min then
    if min >=? beta then Cut min else Window min beta
  else Window alpha beta.

(** [if (beta > max) { beta = max; if (alpha >= beta) return beta; }] *)
Definition lower_beta (max alpha beta : Z) : narrowed :=
  if beta >? max then
    if alpha >=? max then Cut max else Window alpha max
  else Window alpha beta.

Section Solver.
Context {PA : PositionAPI} {BT : BookTableAPI}.

(** The moves of bitmask [mask] by column, in the order the loop
    [for (int i = WIDTH; i--;)] adds them to the sorter, each with its
    ordering score. *)
Definition sorter_fill (P : Position) (mask : Z) (order : list Z) : list (Z * Z) :=
  fold_left
    (fun entries col =>
       let move := Z.land mask (column_mask col) in
       if move =? 0 then entries
       else MoveSorter_add entries move (moveScore P move))
    (rev order) [].

(** Lines 64-79: the window narrowed by the entry read from the table. *)
Definition narrow_by_table (val alpha beta : Z) : narrowed :=
  if val =? 0 then Window alpha beta
  else if is_lower_bound MIN_SCORE MAX_SCORE val
       then raise_alpha (decode_lower MIN_SCORE MAX_SCORE val) alpha beta
       else lower_beta (decode_upper MIN_SCORE val) alpha beta.

(** Lines 94-110: the loop over the sorted moves, and the store of an
    upper bound when it ends without a cut-off.  [rec] is the recursive
    call on a successor position. *)
Fixpoint negamax_moves
         (rec : gmap Z Z -> Position -> Z -> Z -> option (Z * gmap Z Z))
         (P : Position) (beta : Z)
         (moves : list Z) (tt : gmap Z Z) (alpha : Z)
  : option (Z * gmap Z Z) :=
  match moves with
  | [] => Some (alpha, TT_put tt (key P) (upper_bound_code MIN_SCORE alpha))
  | next :: rest =>
    match rec tt (play P next) (- beta) (- alpha) with
    | None => None
    | Some (r, tt') =>
      let score := - r in
      if score >=? beta
      then Some (score,
                 TT_put tt' (key P) (lower_bound_code MIN_SCORE MAX_SCORE score))
      else negamax_moves rec P beta rest tt'
                         (if score >? alpha then score else alpha)
    end
  end.

(** [Solver::negamax].  The solver's state is its transposition table,
    passed in and returned; the book and the column order do not change
    during a search.  [fuel] bounds the depth of the recursion; the
    result is [None] when it is exhausted or when the call is undefined.
    The two [assert]s open the body: a call that breaks one of them has
    no result. *)
Fixpoint negamax (fuel : nat) (book : OpeningBook) (order : list Z)
         (tt : gmap Z Z) (P : Position) (alpha beta depth : Z)
  : option (Z * gmap Z Z) :=
  match fuel with
  | O => None
  | S fuel' =>
    if negb (alpha <? beta) then None
    else if canWinNext P then None
    else
    let possible := possibleNonLosingMoves P in
    if possible =? 0
    then Some (Z.quot (- (WIDTH * HEIGHT - nbMoves P)) 2, tt)
    else if nbMoves P >=? WIDTH * HEIGHT - 2 then Some (0, tt)
    else
      let min := Z.quot (- (WIDTH * HEIGHT - 2 - nbMoves P)) 2 in
      match raise_alpha min alpha beta with
      | Cut v => Some (v, tt)
      | Window alpha beta =>
      let max := Z.quot (WIDTH * HEIGHT - 1 - nbMoves P) 2 in
      match lower_beta max alpha beta with
      | Cut v => Some (v, tt)
      | Window alpha beta =>
      match narrow_by_table (TT_get tt (key P)) alpha beta with
      | Cut v => Some (v, tt)
      | Window alpha beta =>
      match OpeningBook_get book P with
      | None => None
      | Some val =>
        if negb (val =? 0) then Some (val + MIN_SCORE - 1, tt)
        else if depth =? 0 then Some (0, tt)
        else
          let depth := if depth >? 0 then depth - 1 else depth in
          negamax_moves
            (fun tt P2 a b => negamax fuel' book order tt P2 a b depth)
            P beta
            (MoveSorter_visit (sorter_fill P possible order)) tt alpha
      end end end end
  end.

(** Lines 124-126: the probe value of one iteration of [solve]. *)
Definition midpoint (min max : Z) : Z :=
  let med := min + Z.quot (max - min) 2 in
  if (med <=? 0) && (Z.quot min 2 <? med) then Z.quot min 2
  else if (med >=? 0) && (Z.quot max 2 >? med) then Z.quot max 2
  else med.

(** Lines 123-131: the loop [while (min < max)].  [probe tt med] is the
    call [negamax(P, med, med + 1, depth)] on table [tt]; [n] bounds the
    number of iterations.  The result is the state in which the loop is
    left: the final [min] and [max], and the table. *)
Fixpoint solve_loop (n : nat)
         (probe : gmap Z Z -> Z -> option (Z * gmap Z Z))
         (tt : gmap Z Z) (min max : Z) : option (Z * Z * gmap Z Z) :=
  if min <? max then
    match n with
    | O => None
    | S n' =>
      let med := midpoint min max in
      match probe tt med with
      | None => None
      | Some (r, tt') =>
        if r <=? med then solve_loop n' probe tt' min r
        else solve_loop n' probe tt' r max
      end
    end
  else Some (min, max, tt).

(** Lines 116-121: the interval the search of [solve] starts from. *)
Definition solve_range (P : Position) (weak : bool) : Z * Z :=
  let min := Z.quot (- (WIDTH * HEIGHT - nbMoves P)) 2 in
  let max := Z.quot (WIDTH * HEIGHT + 1 - nbMoves P) 2 in
  let min := if weak then -1 else min in
  let max := if weak then 1 else max in
  (min, max).

(** The loop of [solve] on its position, each probe a null-window call
    of [negamax]. *)
Definition solve_search (fuel : nat) (book : OpeningBook) (order : list Z)
           (tt : gmap Z Z) (P : Position) (depth : Z) (weak : bool)
  : option (Z * Z * gmap Z Z) :=
  solve_loop fuel
             (fun tt med => negamax fuel book order tt P med (med + 1) depth)
             tt (fst (solve_range P weak)) (snd (solve_range P weak)).

(** [Solver::solve]: the loop is entered unless the side to move wins
    at once, and [min] is returned when it is left. *)
Definition solve (fuel : nat) (book : OpeningBook) (order : list Z)
           (tt : gmap Z Z) (P : Position) (depth : Z) (weak : bool)
  : option (Z * gmap Z Z) :=
  if canWinNext P
  then Some (Z.quot (WIDTH * HEIGHT + 1 - nbMoves P) 2, tt)
  else
    match solve_search fuel book order tt P depth weak with
    | None => None
    | Some (min, _, tt') => Some (min, tt')
    end.

(** [getMoveColumn]: the highest column whose mask meets the move;
    [None] when the loop falls through to the failing [assert]. *)
Definition getMoveColumn (move : Z) : option Z :=
  find (fun i => negb (Z.land move (column_mask i) =? 0))
       (rev (map Z.of_nat (seq 0 (Z.to_nat WIDTH)))).

(** Lines 157-163: every move is played, the successor is solved, and
    the negated score is recorded.  The column printed on [std::cerr]
    is computed for each move. *)
Fixpoint rank_moves (fuel : nat) (book : OpeningBook) (order : list Z)
         (P : Position) (depth : Z) (weak : bool)
         (moves : list Z) (tt : gmap Z Z) (recorded : list (Z * Z))
  : option (list (Z * Z) * gmap Z Z) :=
  match moves with
  | [] => Some (recorded, tt)
  | next :: rest =>
    match solve fuel book order tt (play P next) depth weak with
    | None => None
    | Some (r, tt') =>
      match getMoveColumn next with
      | None => None
      | Some _ =>
        rank_moves fuel book order P depth weak rest tt'
                   (recorded ++ [(next, - r)])
      end
    end
  end.

(** [Solver::getBestMove]: the column of a move of maximal score, or
    -1 when the position has no legal move. *)
Definition getBestMove (fuel : nat) (book : OpeningBook) (order : list Z)
           (tt : gmap Z Z) (P : Position) (depth : Z) (weak : bool)
  : option (Z * gmap Z Z) :=
  let possible := possible P in
  if possible =? 0 then Some (-1, tt)
  else
    match rank_moves fuel book order P depth weak
                     (MoveSorter_visit (sorter_fill P possible order)) tt [] with
    | None => None
    | Some (recorded, tt') =>
      match MoveChooser_best recorded with
      | None => None
      | Some (best, _) =>
        match getMoveColumn best with
        | None => None
        | Some col => Some (col, tt')
        end
      end
    end.
End Solver.

(** ** The game-theoretic score and the contract of the interface *)

Section Game.
Context {PA : PositionAPI} {BT : BookTableAPI}.

(** The columns of the board, left to right. *)
Definition columns : list Z := map Z.of_nat (seq 0 (Z.to_nat WIDTH)).

(** The move of a position in a column: zero when the column is full. *)
Definition move_in (P : Position) (col : Z) : Z :=
  Z.land (possible P) (column_mask col).

(** The legal moves, one per playable column, as [getBestMove]
    enumerates them. *)
Definition legal_moves (P : Position) : list Z :=
  List.filter (fun m => negb (m =? 0)) (map (move_in P) columns).

(** The best of the values a player can reach; 0 when there is none. *)
Definition best_reply (vals : list Z) : Z :=
  match vals with
  | [] => 0
  | v :: rest => fold_left Z.max rest v
  end.

(** The score of a position for the side to move, with [n] cells left:
    the fastest-win score when the side to move completes a win at
    once, a draw once the board is full, and otherwise the best of the
    negated scores of the successors. *)
Fixpoint score (n : nat) (P : Position) : Z :=
  if canWinNext P then Z.quot (WIDTH * HEIGHT + 1 - nbMoves P) 2
  else
    match n with
    | O => 0
    | S n' => best_reply (map (fun m => - score n' (play P m)) (legal_moves P))
    end.

Definition cells_left (P : Position) : nat :=
  Z.to_nat (WIDTH * HEIGHT - nbMoves P).

Definition true_score (P : Position) : Z := score (cells_left P) P.

(** The value of a move for the side that plays it. *)
Definition move_value (P : Position) (m : Z) : Z := - true_score (play P m).

(** A move that is legal and lets the opponent no immediate win. *)
Definition non_losing (P : Position) (m : Z) : Prop :=
  In m (legal_moves P) /\ canWinNext (play P m) = false.

(** What a byte read from the transposition table claims about a
    position of score [s]. *)
Definition entry_sound (val s : Z) : Prop :=
  val = 0 \/
  (is_lower_bound MIN_SCORE MAX_SCORE val = true /\
   decode_lower MIN_SCORE MAX_SCORE val <= s) \/
  (is_lower_bound MIN_SCORE MAX_SCORE val = false /\
   s <= decode_upper MIN_SCORE val).

(** The contract between the solver and the position class, over the
    positions [valid] in which nobody has won yet: the move count stays
    within the board and grows by one with a move; a legal move leads to
    a valid position unless it completes a win; a board is full exactly
    when no column takes a move; the non-losing mask keeps, column by
    column, the legal moves after which the opponent has no immediate
    win; the key identifies the position; scores lie between
    [MIN_SCORE] and [MAX_SCORE].  The last three clauses tie the two
    constants to the board: the bounds [negamax] can store differ from
    the score range by one at most, and their codes fit a byte. *)
Class PositionLaws (valid : Position -> Prop) : Prop := {
  width_nonneg : 0 <= WIDTH;
  nbMoves_range : forall P, valid P -> 0 <= nbMoves P <= WIDTH * HEIGHT;
  nbMoves_play : forall P col,
      valid P -> In col columns -> move_in P col <> 0 ->
      nbMoves (play P (move_in P col)) = nbMoves P + 1;
  valid_play : forall P col,
      valid P -> canWinNext P = false -> In col columns -> move_in P col <> 0 ->
      valid (play P (move_in P col));
  full_board : forall P,
      valid P -> nbMoves P = WIDTH * HEIGHT -> legal_moves P = [];
  move_exists : forall P,
      valid P -> nbMoves P < WIDTH * HEIGHT -> legal_moves P <> [];
  win_needs_cell : forall P,
      valid P -> canWinNext P = true -> nbMoves P < WIDTH * HEIGHT;
  non_losing_in : forall P col,
      valid P -> canWinNext P = false -> In col columns ->
      Z.land (possibleNonLosingMoves P) (column_mask col) =
      if (move_in P col =? 0) || canWinNext (play P (move_in P col))
      then 0 else move_in P col;
  non_losing_none : forall P,
      valid P ->
      (forall col, In col columns ->
                   Z.land (possibleNonLosingMoves P) (column_mask col) = 0) ->
      possibleNonLosingMoves P = 0;
  key_injective : forall P Q, valid P -> valid Q -> key P = key Q -> P = Q;
  score_range : forall P, valid P -> MIN_SCORE <= true_score P <= MAX_SCORE;
  min_score_low : MIN_SCORE <= 2 - Z.quot (WIDTH * HEIGHT - 2) 2;
  max_score_high : Z.quot (WIDTH * HEIGHT - 1) 2 <= MAX_SCORE + 2;
  codes_fit_byte : 2 * MAX_SCORE - 2 * MIN_SCORE + 2 <= 255
}.

(** Every entry of the table is a sound bound for the position of its key. *)
Definition table_sound (valid : Position -> Prop) (tt : gmap Z Z) : Prop :=
  forall P, valid P -> entry_sound (TT_get tt (key P)) (true_score P).

(** Every answer of the book is a miss or the exact score. *)
Definition book_sound (valid : Position -> Prop) (book : OpeningBook) : Prop :=
  forall P, valid P ->
    exists val, OpeningBook_get book P = Some val /\
                (val = 0 \/ val + MIN_SCORE - 1 = true_score P).

(** The book answers on every position: no lookup goes through a
    dangling table pointer. *)
Definition book_defined (valid : Position -> Prop) (book : OpeningBook) : Prop :=
  forall P, valid P -> exists val, OpeningBook_get book P = Some val.

(** The result [v] of a search of window [(alpha, beta)] on a position
    of score [s], as the header comment of [negamax] states it. *)
Definition negamax_post (s alpha beta v : Z) : Prop :=
  (s <= alpha -> s <= v <= alpha) /\
  (beta <= s -> beta <= v <= s) /\
  (alpha < s < beta -> v = s).

(** What is expected of a search procedure [rec] on the positions with
    fewer than [n] cells left: it answers, and when [sound] holds and
    the table it starts from is sound, the table it leaves is sound and
    its answer is right for the window. *)
Definition search_ok (valid : Position -> Prop) (sound : Prop)
           (rec : gmap Z Z -> Position -> Z -> Z -> option (Z * gmap Z Z))
           (n : nat) : Prop :=
  forall tt P alpha beta,
    valid P -> canWinNext P = false -> alpha < beta ->
    (cells_left P < n)%nat ->
    exists v tt',
      rec tt P alpha beta = Some (v, tt') /\
      (sound -> table_sound valid tt ->
       table_sound valid tt' /\ negamax_post (true_score P) alpha beta v).

(** The outcome of the loop over the moves [moves] entered with
    [alpha]: a cut-off on a value some move guarantees, or a value that
    no move exceeds and that is [alpha] or the value of a move. *)
Definition moves_outcome (P : Position) (moves : list Z) (alpha beta v : Z) : Prop :=
  (beta <= v /\ exists m, In m moves /\ v <= move_value P m) \/
  (v < beta /\ alpha <= v /\
   (forall m, In m moves -> move_value P m <= v) /\
   (v = alpha \/ exists m, In m moves /\ v = move_value P m)).

(** The code the loop stores with its result [v]. *)
Definition stored_code (beta v : Z) : Z :=
  if v >=? beta then lower_bound_code MIN_SCORE MAX_SCORE v
  else upper_bound_code MIN_SCORE v.
End Game.

(** ** Checking the contract on a finite set of positions *)

Section LawsCheck.
Context {PA : PositionAPI}.
Variable eqb : Position -> Position -> bool.
Variable all : list Position.

(** The clauses of the contract that speak of one column of a position. *)
Definition check_column (P : Position) (col : Z) : bool :=
  let m := move_in P col in
  ((m =? 0) ||
   ((nbMoves (play P m) =? nbMoves P + 1) &&
    (canWinNext P || existsb (eqb (play P m)) all))) &&
  (canWinNext P ||
   (Z.land (possibleNonLosingMoves P) (column_mask col) =?
    (if (m =? 0) || canWinNext (play P m) then 0 else m))).

(** The clauses of the contract that speak of one position. *)
Definition check_position (P : Position) : bool :=
  (0 <=? nbMoves P) && (nbMoves P <=? WIDTH * HEIGHT) &&
  (match legal_moves P with
   | [] => nbMoves P =? WIDTH * HEIGHT
   | _ => negb (nbMoves P =? WIDTH * HEIGHT)
   end) &&
  implb (canWinNext P) (nbMoves P <? WIDTH * HEIGHT) &&
  implb (forallb (fun col => Z.land (possibleNonLosingMoves P) (column_mask col) =? 0)
                 columns)
        (possibleNonLosingMoves P =? 0) &&
  (MIN_SCORE <=? true_score P) && (true_score P <=? MAX_SCORE) &&
  forallb (check_column P) columns &&
  forallb (fun Q => implb (key P =? key Q) (eqb P Q)) all.

(** The clauses on the constants. *)
Definition check_constants : bool :=
  (0 <=? WIDTH) &&
  (MIN_SCORE <=? 2 - Z.quot (WIDTH * HEIGHT - 2) 2) &&
  (Z.quot (WIDTH * HEIGHT - 1) 2 <=? MAX_SCORE + 2) &&
  (2 * MAX_SCORE - 2 * MIN_SCORE + 2 <=? 255).

Definition check_laws : bool := check_constants && forallb check_position all.
End LawsCheck.

(** ** A position class to run the solver on *)

(** Modelled from the spec: the position class ([Position.hpp] is
    missing).  The interface of the specification (move count, keys,
    legal and non-losing move masks, immediate-win test, ordering
    heuristic, play) is implemented on the bitboard of the Connect4 Game
    Solver these sources are part of: one bit per cell, [HEIGHT + 1] bits
    per column, the stones of the side to move in [current_position] and
    all stones in [mask]. *)
Module Bitboard.

Record board := {
  current_position : Z;
  mask : Z;
  moves : Z
}.

Definition board_eqb (a b : board) : bool :=
  (current_position a =? current_position b) &&
  (mask a =? mask b) && (moves a =? moves b).

Fixpoint popcount_pos (p : positive) : Z :=
  match p with
  | xH => 1
  | xO q => popcount_pos q
  | xI q => 1 + popcount_pos q
  end.

Definition popcount (m : Z) : Z :=
  match m with
  | Zpos p => popcount_pos p
  | _ => 0
  end.

Section Sized.
Variables W H : Z.

Definition empty : board := {| current_position := 0; mask := 0; moves := 0 |}.

Definition bottom_mask_col (col : Z) : Z := Z.shiftl 1 (col * (H + 1)).

Definition bottom_mask : Z :=
  fold_left (fun m col => Z.lor m (bottom_mask_col (Z.of_nat col)))
            (seq 0 (Z.to_nat W)) 0.

Definition board_mask : Z := bottom_mask * (Z.shiftl 1 H - 1).

Definition col_mask (col : Z) : Z :=
  Z.shiftl (Z.shiftl 1 H - 1) (col * (H + 1)).

(** The free cells in which a stone would complete an alignment of
    four with the stones of [position]. *)
Definition compute_winning_position (position msk : Z) : Z :=
  let along (d : Z) : Z :=
    let p := Z.land (Z.shiftl position d) (Z.shiftl position (2 * d)) in
    let q := Z.land (Z.shiftr position d) (Z.shiftr position (2 * d)) in
    Z.lor (Z.lor (Z.land p (Z.shiftl position (3 * d)))
                 (Z.land p (Z.shiftr position d)))
          (Z.lor (Z.land q (Z.shiftl position d))
                 (Z.land q (Z.shiftr position (3 * d)))) in
  let vertical :=
    Z.land (Z.land (Z.shiftl position 1) (Z.shiftl position 2))
           (Z.shiftl position 3) in
  let r := Z.lor (Z.lor vertical (along (H + 1)))
                 (Z.lor (along H) (along (H + 2))) in
  Z.land r (Z.lxor board_mask msk).

Definition bb_possible (P : board) : Z :=
  Z.land (mask P + bottom_mask) board_mask.

Definition winning_position (P : board) : Z :=
  compute_winning_position (current_position P) (mask P).

Definition opponent_winning_position (P : board) : Z :=
  compute_winning_position (Z.lxor (current_position P) (mask P)) (mask P).

Definition bb_canWinNext (P : board) : bool :=
  negb (Z.land (winning_position P) (bb_possible P) =? 0).

(** The legal moves after which the opponent cannot win at once:
    a single forced reply when the opponent threatens one cell, none
    when it threatens two, never the cell under a threat. *)
Definition bb_possibleNonLosingMoves (P : board) : Z :=
  let possible_mask := bb_possible P in
  let opponent_win := opponent_winning_position P in
  let forced_moves := Z.land possible_mask opponent_win in
  let keep m := Z.ldiff m (Z.shiftr opponent_win 1) in
  if forced_moves =? 0 then keep possible_mask
  else if Z.land forced_moves (forced_moves - 1) =? 0 then keep forced_moves
       else 0.

Definition bb_play (P : board) (move : Z) : board :=
  {| current_position := Z.lxor (current_position P) (mask P);
     mask := Z.lor (mask P) move;
     moves := moves P + 1 |}.

Definition bb_moveScore (P : board) (move : Z) : Z :=
  popcount (compute_winning_position (Z.lor (current_position P) move) (mask P)).

Definition bb_key (P : board) : Z := current_position P + mask P.

(** The base-3 digits of one column, bottom up, closed by a 0. *)
Fixpoint partialKey3 (n : nat) (P : board) (pos k : Z) : Z :=
  match n with
  | O => k * 3
  | S n' =>
    if Z.land pos (mask P) =? 0 then k * 3
    else partialKey3 n' P (Z.shiftl pos 1)
                     (k * 3 + (if Z.land pos (current_position P) =? 0 then 2 else 1))
  end.

Definition bb_key3 (P : board) : Z :=
  let cols := map Z.of_nat (seq 0 (Z.to_nat W)) in
  let digits order :=
    fold_left (fun k col => partialKey3 (Z.to_nat H) P (bottom_mask_col col) k)
              order 0 in
  let key_forward := digits cols in
  let key_reverse := digits (rev cols) in
  if key_forward <? key_reverse then Z.quot key_forward 3
  else Z.quot key_reverse 3.

(** The position reached from the empty board by playing the given
    columns in turn. *)
Definition play_col (P : board) (col : Z) : board :=
  bb_play P (Z.land (bb_possible P) (col_mask col)).

Definition play_cols (cols : list Z) : board := fold_left play_col cols empty.
End Sized.

(** The positions reached from the empty board while nobody has won,
    level by level. *)
Section Reachable.
Variables W H : Z.

Definition successors (P : board) : list board :=
  if bb_canWinNext W H P then []
  else
    flat_map
      (fun col =>
         let m := Z.land (bb_possible W H P) (col_mask H (Z.of_nat col)) in
         if m =? 0 then [] else [bb_play P m])
      (seq 0 (Z.to_nat W)).

Definition insert_new (P : board) (l : list board) : list board :=
  if existsb (board_eqb P) l then l else P :: l.

Definition next_level (level : list board) : list board :=
  fold_right insert_new [] (flat_map successors level).

Fixpoint levels (n : nat) (level : list board) : list board :=
  match n with
  | O => level
  | S n' => level ++ levels n' (next_level level)
  end.

Definition reachable : list board := levels (Z.to_nat (W * H)) [empty].
End Reachable.

(** The interface over a board of [W] columns and [H] rows with the
    score bounds [MINS] and [MAXS]. *)
Definition API (W H MINS MAXS : Z) : PositionAPI := {|
  Position := board;
  WIDTH := W;
  HEIGHT := H;
  MIN_SCORE := MINS;
  MAX_SCORE := MAXS;
  nbMoves := moves;
  canWinNext := bb_canWinNext W H;
  possible := bb_possible W H;
  possibleNonLosingMoves := bb_possibleNonLosingMoves W H;
  key := bb_key;
  key3 := bb_key3 W H;
  moveScore := bb_moveScore W H;
  play := bb_play;
  column_mask := col_mask H
|}.
End Bitboard.

(** The board of the game: 7 columns, 6 rows, scores between -18 and 18. *)
Definition Connect4 : PositionAPI := Bitboard.API 7 6 (-18) 18.

(** A board of 4 columns and 2 rows, small enough to enumerate. *)
Definition Connect4x2 : PositionAPI := Bitboard.API 4 2 (-1) 1.

(** A board of 4 columns and 3 rows. *)
Definition Connect4x3 : PositionAPI := Bitboard.API 4 3 (-3) 3.

(** A book table that holds nothing. *)
Definition NoBookTable : BookTableAPI :=
  {| table_size := fun _ => 0%nat; table_get := fun _ _ => 0 |}.

(** ** Saving the opening book ([OpeningBook::save]) *)

(** [char tmp = v; ofs.write(&tmp, 1)]: the byte written for an [int]. *)
Definition int_to_byte (v : Z) : Byte.byte :=
  match Byte.of_N (Z.to_N (v mod 256)) with
  | Some b => b
  | None => Byte.x00
  end.

Section OpeningBookSave.
Context {BT : BookTableAPI}.

(** [save(output_file)].  Nothing is written for a null table
    ([Some None]).  For a live table the file holds the six header bytes
    (width, height, depth, key size, value size 1 of [uint8_t], and the
    integral part of the binary logarithm of the slot count) and then
    the key array and the value array in full.  The result is [None]
    when the call reads through a dangling pointer, or when the model
    does not hold the arrays in full (a table left by a short read). *)
Definition save (b : OpeningBook) : option (option (list Byte.byte)) :=
  match T b with
  | TNull => Some None
  | TDangling => None
  | TLive tbl =>
    let size := table_size (bt_log_size tbl) in
    if (length (bt_keys tbl) =? size * Z.to_nat (bt_key_bytes tbl))%nat &&
       (length (bt_values tbl) =? size)%nat
    then Some (Some ([int_to_byte (width b); int_to_byte (height b);
                      int_to_byte (depth b); int_to_byte (bt_key_bytes tbl);
                      int_to_byte 1; int_to_byte (Z.log2 (Z.of_nat size))]
                       ++ bt_keys tbl ++ bt_values tbl))
    else None
  end.
End OpeningBookSave.

(** [~OpeningBook()]: the destructor deletes the table; the result is
    [None] when that is a second delete of the same table. *)
Definition OpeningBook_destroy (b : OpeningBook) : option unit :=
  match delete_ptr (T b) with
  | Some _ => Some tt
  | None => None
  end.

(** ** A storage engine for the book *)

(** Modelled from the spec: the table behind the book
    ([TranspositionTable.hpp] is missing).  The slot count is the
    smallest prime not below [2 ^ log_size]; the slot of a key is the key
    modulo the number of slots, and a slot answers with its value when
    the partial key it holds is the key truncated to the key size. *)
Module SlotTable.

Fixpoint has_factor (fuel : nat) (n d : Z) : bool :=
  match fuel with
  | O => false
  | S fuel' =>
    if n <? d * d then false
    else if n mod d =? 0 then true
         else has_factor fuel' n (d + 1)
  end.

Fixpoint next_prime (fuel : nat) (n : Z) : Z :=
  match fuel with
  | O => n
  | S fuel' =>
    if has_factor (Z.to_nat (Z.sqrt n)) n 2 then next_prime fuel' (n + 1) else n
  end.

Definition size_of (log_size : Z) : nat :=
  Z.to_nat (next_prime 1000 (Z.max 2 (2 ^ log_size))).

(** The little-endian value of a run of bytes. *)
Definition bytes_value (bs : list Byte.byte) : Z :=
  fold_right (fun b acc => Z.of_N (Byte.to_N b) + 256 * acc) 0 bs.

Definition get (tbl : BookTable) (k : Z) : Z :=
  let kb := Z.to_nat (bt_key_bytes tbl) in
  let size := Z.of_nat (length (bt_values tbl)) in
  if size =? 0 then 0
  else
    let i := Z.to_nat (k mod size) in
    let stored := bytes_value (firstn kb (skipn (i * kb) (bt_keys tbl))) in
    if stored =? k mod 2 ^ (8 * bt_key_bytes tbl)
    then Z.of_N (Byte.to_N (nth i (bt_values tbl) Byte.x00))
    else 0.

Definition API : BookTableAPI := {| table_size := size_of; table_get := get |}.
End SlotTable.

(** ** Column masks *)

Section ColumnMasks.
Context {PA : PositionAPI}.

(** No cell of the board lies in the masks of two columns. *)
Definition disjoint_masks : Prop :=
  forall c c', In c columns -> In c' columns -> c <> c' ->
               Z.land (column_mask c) (column_mask c') = 0.

Definition check_masks : bool :=
  forallb (fun c =>
             forallb (fun c' => (c =? c') ||
                                (Z.land (column_mask c) (column_mask c') =? 0))
                     columns)
          columns.

(** What the move chooser is given for a move of value [mv] by a solve
    of the successor: the value itself, or with [weak] set 1 for a
    winning move, 0 for a drawing move and a negative number not below
    the value for a losing move. *)
Definition ranked_as (weak : bool) (mv w : Z) : Prop :=
  if weak
  then (0 < mv -> w = 1) /\ (mv = 0 -> w = 0) /\ (mv < 0 -> mv <= w <= -1)
  else w = mv.
End ColumnMasks.

(** ** Bytes kept in the transposition table *)


(** * Properties *)

(** Linear arithmetic with the truncating and flooring divisions by a
    constant. *)
Ltac zdiv := Z.to_euclidean_division_equations; lia.

(** ** Column order *)

Lemma columnOrder_at_parity (W i : Z) :
  0 <= i ->
  columnOrder_at W i =
  if Z.even i then Z.quot W 2 + Z.quot i 2 else Z.quot W 2 - Z.quot (i + 1) 2.
Proof.
  intros Hi. unfold columnOrder_at.
  destruct (Z.even i) eqn:E.
  - apply Z.even_spec in E. destruct E as [k ->]. zdiv.
  - assert (O : Z.odd i = true) by (rewrite <- Z.negb_even, E; reflexivity).
    apply Z.odd_spec in O. destruct O as [k ->]. zdiv.
Qed.

Lemma columnOrder_nth (W i : Z) :
  0 <= i < W ->
  nth (Z.to_nat i) (columnOrder W) 0 = columnOrder_at W i.
Proof.
  intros Hi. unfold columnOrder.
  rewrite nth_indep with (d' := columnOrder_at W (Z.of_nat 0))
    by (rewrite length_map, length_seq; lia).
  rewrite (map_nth (fun i => columnOrder_at W (Z.of_nat i))).
  rewrite seq_nth by lia. f_equal. lia.
Qed.

Lemma columnOrder_at_range (W i : Z) :
  0 <= i < W -> 0 <= columnOrder_at W i < W.
Proof.
  intros Hi. rewrite columnOrder_at_parity by lia.
  destruct (Z.even i) eqn:E.
  - apply Z.even_spec in E. destruct E as [k ->]. zdiv.
  - assert (O : Z.odd i = true) by (rewrite <- Z.negb_even, E; reflexivity).
    apply Z.odd_spec in O. destruct O as [k ->]. zdiv.
Qed.

Lemma columnOrder_at_inj (W i j : Z) :
  0 <= i -> 0 <= j -> columnOrder_at W i = columnOrder_at W j -> i = j.
Proof.
  intros Hi Hj. rewrite !columnOrder_at_parity by lia.
  destruct (Z.even i) eqn:Ei, (Z.even j) eqn:Ej;
    repeat match goal with
           | H : Z.even ?x = true |- _ =>
             apply Z.even_spec in H; destruct H as [? ->]
           | H : Z.even ?x = false |- _ =>
             rewrite <- Z.negb_odd in H; apply negb_false_iff in H;
             apply Z.odd_spec in H; destruct H as [? ->]
           end; zdiv.
Qed.

Lemma columnOrder_In (W c : Z) :
  In c (columnOrder W) <-> 0 <= c < W.
Proof.
  unfold columnOrder. rewrite in_map_iff. split.
  - intros (i & <- & Hi). apply in_seq in Hi.
    apply columnOrder_at_range. lia.
  - intros Hc.
    destruct (Z_lt_le_dec c (Z.quot W 2)) as [L | G].
    + exists (Z.to_nat (1 + 2 * (Z.quot W 2 - c - 1))). split.
      * rewrite columnOrder_at_parity by lia.
        rewrite Z2Nat.id by lia.
        rewrite Z.even_add_mul_2. cbn [Z.even]. zdiv.
      * apply in_seq. zdiv.
    + exists (Z.to_nat (2 * (c - Z.quot W 2))). split.
      * rewrite columnOrder_at_parity by lia.
        rewrite Z2Nat.id by lia.
        rewrite Z.even_mul. cbn [Z.even orb]. zdiv.
      * apply in_seq. zdiv.
Qed.

Lemma columnOrder_NoDup (W : Z) : List.NoDup (columnOrder W).
Proof.
  unfold columnOrder. apply Finite.Injective_map_NoDup_in.
  - intros i j Hi Hj E. apply columnOrder_at_inj in E; lia.
  - apply List.seq_NoDup.
Qed.

Lemma columnOrder_Permutation (W : Z) :
  Permutation (columnOrder W) (map Z.of_nat (seq 0 (Z.to_nat W))).
Proof.
  apply Permutation.NoDup_Permutation.
  - apply columnOrder_NoDup.
  - apply Finite.Injective_map_NoDup.
    + intros i j E. lia.
    + apply List.seq_NoDup.
  - intros c. rewrite columnOrder_In, in_map_iff. split.
    + intros Hc. exists (Z.to_nat c). split; [lia | apply in_seq; lia].
    + intros (i & <- & Hi). apply in_seq in Hi. lia.
Qed.

(** C5: for width 7 the constructor computes [3; 2; 4; 1; 5; 0; 6].
    After the centre column it takes the left neighbour first, where
    the comment at the loop gives {3, 4, 2, 5, 1, 6, 0}: the array is
    the mirror image of the promised one, column [c] standing where
    column [6 - c] is expected. *)
Theorem columnOrder_mirrors_comment :
  columnOrder 7 = [3; 2; 4; 1; 5; 0; 6] /\
  columnOrder 7 <> [3; 4; 2; 5; 1; 6; 0] /\
  nth 1 (columnOrder 7) 0 = 2 /\
  map (fun c => 6 - c) (columnOrder 7) = [3; 4; 2; 5; 1; 6; 0].
Proof. repeat split. vm_compute. discriminate. Qed.

(** The formula with the rounded-up half gives 4 at index 0 for width
    7, where the array of the constructor starts at column 3. *)
Lemma columnOrder_rounded_up_half :
  spec_columnOrder_at 7 0 = 4 /\ nth 0 (columnOrder 7) 0 = 3.
Proof. split; reflexivity. Qed.

(** X17: what the constructor computes.  For every index [0 <= i < W]
    it writes [W/2 + ((1 - 2 (i mod 2)) (i + 1)) / 2] with the division
    truncating toward zero, that is [W/2 + i/2] for an even [i] and
    [W/2 - (i+1)/2] for an odd [i]; the array starts at the centre
    column and is a permutation of the columns [0 .. W-1]. *)
Theorem columnOrder_formula (W i : Z) :
  0 <= i < W ->
  nth (Z.to_nat i) (columnOrder W) 0 =
    Z.quot W 2 + Z.quot ((1 - 2 * Z.rem i 2) * (i + 1)) 2 /\
  nth (Z.to_nat i) (columnOrder W) 0 =
    (if Z.even i then Z.quot W 2 + Z.quot i 2 else Z.quot W 2 - Z.quot (i + 1) 2) /\
  nth 0 (columnOrder W) 0 = Z.quot W 2 /\
  Permutation (columnOrder W) (map Z.of_nat (seq 0 (Z.to_nat W))).
Proof.
  intros Hi. repeat split.
  - apply columnOrder_nth; assumption.
  - rewrite columnOrder_nth by assumption. apply columnOrder_at_parity. lia.
  - change 0%nat with (Z.to_nat 0). rewrite columnOrder_nth by lia.
    unfold columnOrder_at. zdiv.
  - apply columnOrder_Permutation.
Qed.

Lemma columnOrder_formula_witness :
  nth 1 (columnOrder 7) 0 = 2 /\
  Permutation (columnOrder 7) [0; 1; 2; 3; 4; 5; 6].
Proof.
  destruct (columnOrder_formula 7 1 ltac:(lia)) as (H1 & _ & _ & H4).
  split; [exact H1 | exact H4].
Defined.

(** ** Bound codes of the transposition table *)

(** C2: with codes that fit the byte of a slot, a score between
    [MIN_SCORE] and [MAX_SCORE] stored as a lower bound is read back as a
    lower bound of the same score, stored as an upper bound it is read
    back as an upper bound of the same score, and the bytes of lower
    bounds, the bytes of upper bounds and the absent byte 0 never
    coincide. *)
Theorem bound_codes_roundtrip (MIN MAX s s' : Z) :
  2 * MAX - 2 * MIN + 2 <= 255 ->
  MIN <= s <= MAX ->
  MIN <= s' <= MAX ->
  let lo := to_uint8 (lower_bound_code MIN MAX s) in
  let up := to_uint8 (upper_bound_code MIN s) in
  (MAX - MIN + 1 < lo /\ is_lower_bound MIN MAX lo = true /\
   decode_lower MIN MAX lo = s) /\
  (1 <= up <= MAX - MIN + 1 /\ is_lower_bound MIN MAX up = false /\
   decode_upper MIN up = s) /\
  lo <> to_uint8 (upper_bound_code MIN s') /\ lo <> 0 /\ up <> 0.
Proof.
  intros Hfit Hs Hs' lo up.
  assert (Elo : lo = s + MAX - 2 * MIN + 2).
  { unfold lo, to_uint8, lower_bound_code. apply Z.mod_small. lia. }
  assert (Eup : up = s - MIN + 1).
  { unfold up, to_uint8, upper_bound_code. apply Z.mod_small. lia. }
  assert (Eup' : to_uint8 (upper_bound_code MIN s') = s' - MIN + 1).
  { unfold to_uint8, upper_bound_code. apply Z.mod_small. lia. }
  rewrite Eup'. unfold is_lower_bound, decode_lower, decode_upper.
  rewrite Elo, Eup.
  repeat split; try lia; try (apply Z.ltb_lt; lia); try (apply Z.ltb_ge; lia).
Qed.

Lemma bound_codes_roundtrip_witness :
  decode_lower (-18) 18 (to_uint8 (lower_bound_code (-18) 18 5)) = 5 /\
  decode_upper (-18) (to_uint8 (upper_bound_code (-18) 5)) = 5.
Proof.
  pose proof (bound_codes_roundtrip (-18) 18 5 (-3)
                ltac:(lia) ltac:(lia) ltac:(lia)) as H.
  cbv zeta in H. destruct H as ((_ & _ & H1) & (_ & _ & H2) & _).
  split; [exact H1 | exact H2].
Defined.

(** ** The score of a position *)

Section BestReply.

Lemma fold_max_ge (l : list Z) (v : Z) : v <= fold_left Z.max l v.
Proof.
  revert v. induction l as [| x l IH]; intros v; cbn; [lia |].
  specialize (IH (Z.max v x)). lia.
Qed.

Lemma fold_max_upper (l : list Z) (v x : Z) :
  In x l -> x <= fold_left Z.max l v.
Proof.
  revert v. induction l as [| y l IH]; intros v; cbn; [tauto |].
  intros [-> | Hin]; [| auto].
  pose proof (fold_max_ge l (Z.max v x)). lia.
Qed.

Lemma fold_max_In (l : list Z) (v : Z) :
  fold_left Z.max l v = v \/ In (fold_left Z.max l v) l.
Proof.
  revert v. induction l as [| y l IH]; intros v; cbn; [auto |].
  destruct (IH (Z.max v y)) as [E | Hin]; [| auto].
  rewrite E. destruct (Z.max_spec v y) as [[_ ->] | [_ ->]]; auto.
Qed.

(** The best reply is one of the values and no value exceeds it. *)
Lemma best_reply_In (l : list Z) : l <> [] -> In (best_reply l) l.
Proof.
  destruct l as [| v l]; [congruence |]. intros _. cbn [best_reply].
  destruct (fold_max_In l v) as [-> | H]; [left | right]; auto.
Qed.

Lemma best_reply_upper (l : list Z) (x : Z) : In x l -> x <= best_reply l.
Proof.
  destruct l as [| v l]; [intros [] |]. cbn [best_reply].
  intros [<- | Hin]; [apply fold_max_ge | apply fold_max_upper; assumption].
Qed.
End BestReply.

Section GameFacts.
Context {PA : PositionAPI} {BT : BookTableAPI}.
Context (valid : Position -> Prop) {L : PositionLaws valid}.

Lemma columns_In (c : Z) : In c columns <-> 0 <= c < WIDTH.
Proof.
  unfold columns. rewrite in_map_iff. split.
  - intros (i & <- & Hi). apply in_seq in Hi. lia.
  - intros Hc. exists (Z.to_nat c). split; [lia | apply in_seq; lia].
Qed.

Lemma legal_moves_In (P : Position) (m : Z) :
  In m (legal_moves P) <->
  exists col, In col columns /\ m = move_in P col /\ m <> 0.
Proof.
  unfold legal_moves. rewrite filter_In, in_map_iff. split.
  - intros ((col & <- & Hc) & Hnz). exists col. repeat split; auto.
    apply negb_true_iff, Z.eqb_neq in Hnz. exact Hnz.
  - intros (col & Hc & -> & Hnz). split; [exists col; auto |].
    apply negb_true_iff, Z.eqb_neq. exact Hnz.
Qed.

Lemma legal_move_room (P : Position) (m : Z) :
  valid P -> In m (legal_moves P) -> nbMoves P < WIDTH * HEIGHT.
Proof.
  intros HP Hm. pose proof (nbMoves_range P HP) as R.
  destruct (Z.eq_dec (nbMoves P) (WIDTH * HEIGHT)) as [E | N]; [| lia].
  rewrite (full_board P HP E) in Hm. destruct Hm.
Qed.

Lemma cells_left_play (P : Position) (m : Z) :
  valid P -> In m (legal_moves P) ->
  cells_left P = S (cells_left (play P m)).
Proof.
  intros HP Hm. pose proof (legal_move_room P m HP Hm) as R.
  pose proof (nbMoves_range P HP) as R'.
  apply legal_moves_In in Hm. destruct Hm as (col & Hc & -> & Hnz).
  unfold cells_left. rewrite (nbMoves_play P col HP Hc Hnz). lia.
Qed.

(** The score of a position in which the side to move cannot win at
    once is the best of the negated scores of its successors. *)
Lemma true_score_unfold (P : Position) :
  valid P -> canWinNext P = false ->
  true_score P =
  best_reply (map (fun m => - true_score (play P m)) (legal_moves P)).
Proof.
  intros HP Hw. unfold true_score at 1.
  destruct (cells_left P) as [| n] eqn:E; cbn [score]; rewrite Hw.
  - pose proof (nbMoves_range P HP) as R.
    assert (Hfull : nbMoves P = WIDTH * HEIGHT) by (unfold cells_left in E; lia).
    rewrite (full_board P HP Hfull). reflexivity.
  - f_equal. apply map_ext_in. intros m Hm.
    pose proof (cells_left_play P m HP Hm) as E'.
    unfold true_score. replace (cells_left (play P m)) with n by lia.
    reflexivity.
Qed.

Lemma true_score_win (P : Position) :
  canWinNext P = true ->
  true_score P = Z.quot (WIDTH * HEIGHT + 1 - nbMoves P) 2.
Proof.
  intros Hw. unfold true_score. destruct (cells_left P); cbn [score]; rewrite Hw; reflexivity.
Qed.

Lemma legal_move_child (P : Position) (m : Z) :
  valid P -> canWinNext P = false -> In m (legal_moves P) ->
  valid (play P m) /\ nbMoves (play P m) = nbMoves P + 1.
Proof.
  intros HP Hw Hm. apply legal_moves_In in Hm.
  destruct Hm as (col & Hc & -> & Hnz). split.
  - apply valid_play; assumption.
  - apply nbMoves_play; assumption.
Qed.

(** The bounds the solver derives from the move count alone. *)
Lemma score_bounds_aux (n : nat) :
  forall P, valid P -> cells_left P = n ->
    Z.quot (- (WIDTH * HEIGHT - nbMoves P)) 2 <= true_score P
      <= Z.quot (WIDTH * HEIGHT + 1 - nbMoves P) 2 /\
    (canWinNext P = false ->
     true_score P <= Z.quot (WIDTH * HEIGHT - 1 - nbMoves P) 2).
Proof.
  induction n as [| n IH]; intros P HP En;
    pose proof (nbMoves_range P HP) as R;
    destruct (canWinNext P) eqn:Hw.
  - rewrite (true_score_win P Hw). split; [zdiv | discriminate].
  - rewrite (true_score_unfold P HP Hw).
    destruct (legal_moves P) as [| m ms] eqn:El.
    + cbn. split; [| intros _]; zdiv.
    + pose proof (cells_left_play P m HP) as C. rewrite El in C.
      specialize (C (or_introl eq_refl)). lia.
  - rewrite (true_score_win P Hw). split; [zdiv | discriminate].
  - rewrite (true_score_unfold P HP Hw).
    destruct (legal_moves P) as [| m0 ms] eqn:El.
    + cbn. split; [| intros _]; zdiv.
    + rewrite <- El.
      assert (Hne : map (fun m => - true_score (play P m)) (legal_moves P) <> [])
        by (rewrite El; discriminate).
      apply best_reply_In in Hne. apply in_map_iff in Hne.
      destruct Hne as (m & Em & Hm). rewrite <- Em.
      destruct (legal_move_child P m HP Hw Hm) as (Hv & Hnb).
      pose proof (cells_left_play P m HP Hm) as C.
      destruct (IH (play P m) Hv ltac:(lia)) as (B & _).
      rewrite Hnb in B. split; [| intros _]; zdiv.
Qed.

Lemma score_bounds (P : Position) :
  valid P ->
  Z.quot (- (WIDTH * HEIGHT - nbMoves P)) 2 <= true_score P
    <= Z.quot (WIDTH * HEIGHT + 1 - nbMoves P) 2.
Proof. intros HP. apply (score_bounds_aux (cells_left P) P HP eq_refl). Qed.

Lemma score_upper_no_win (P : Position) :
  valid P -> canWinNext P = false ->
  true_score P <= Z.quot (WIDTH * HEIGHT - 1 - nbMoves P) 2.
Proof. intros HP. apply (score_bounds_aux (cells_left P) P HP eq_refl). Qed.

Lemma move_value_le (P : Position) (m : Z) :
  valid P -> canWinNext P = false -> In m (legal_moves P) ->
  move_value P m <= true_score P.
Proof.
  intros HP Hw Hm. rewrite (true_score_unfold P HP Hw).
  apply best_reply_upper. apply in_map_iff. exists m. auto.
Qed.

Lemma losing_move_value (P : Position) (m : Z) :
  valid P -> canWinNext P = false -> In m (legal_moves P) ->
  canWinNext (play P m) = true ->
  move_value P m = Z.quot (- (WIDTH * HEIGHT - nbMoves P)) 2.
Proof.
  intros HP Hw Hm Hl. unfold move_value.
  destruct (legal_move_child P m HP Hw Hm) as (Hv & Hnb).
  rewrite (true_score_win _ Hl), Hnb. zdiv.
Qed.

Lemma non_losing_move_value (P : Position) (m : Z) :
  valid P -> canWinNext P = false -> non_losing P m ->
  Z.quot (- (WIDTH * HEIGHT - 2 - nbMoves P)) 2 <= move_value P m.
Proof.
  intros HP Hw (Hm & Hl). unfold move_value.
  destruct (legal_move_child P m HP Hw Hm) as (Hv & Hnb).
  pose proof (score_upper_no_win _ Hv Hl) as B. rewrite Hnb in B. zdiv.
Qed.

(** Some legal move reaches the score. *)
Lemma true_score_reached (P : Position) :
  valid P -> canWinNext P = false -> legal_moves P <> [] ->
  exists m, In m (legal_moves P) /\ true_score P = move_value P m.
Proof.
  intros HP Hw Hne. rewrite (true_score_unfold P HP Hw).
  assert (Hne' : map (fun m => - true_score (play P m)) (legal_moves P) <> []).
  { destruct (legal_moves P); [congruence | discriminate]. }
  apply best_reply_In in Hne'. apply in_map_iff in Hne'.
  destruct Hne' as (m & Em & Hm). exists m. split; [assumption |].
  symmetry. exact Em.
Qed.

(** The non-losing mask, column by column. *)
Lemma non_losing_column (P : Position) (col : Z) :
  valid P -> canWinNext P = false -> In col columns ->
  Z.land (possibleNonLosingMoves P) (column_mask col) <> 0 ->
  non_losing P (Z.land (possibleNonLosingMoves P) (column_mask col)).
Proof.
  intros HP Hw Hc Hnz. rewrite (non_losing_in P col HP Hw Hc) in *.
  destruct (move_in P col =? 0) eqn:E0; [cbn in Hnz; congruence |].
  destruct (canWinNext (play P (move_in P col))) eqn:El; [cbn in Hnz; congruence |].
  cbn. split; [| assumption].
  apply legal_moves_In. exists col. apply Z.eqb_neq in E0. auto.
Qed.

Lemma non_losing_has_column (P : Position) (m : Z) :
  valid P -> canWinNext P = false -> non_losing P m ->
  exists col, In col columns /\ m <> 0 /\
              m = Z.land (possibleNonLosingMoves P) (column_mask col).
Proof.
  intros HP Hw (Hm & Hl). apply legal_moves_In in Hm.
  destruct Hm as (col & Hc & -> & Hnz). exists col. repeat split; auto.
  rewrite (non_losing_in P col HP Hw Hc).
  apply Z.eqb_neq in Hnz. rewrite Hnz, Hl. reflexivity.
Qed.

(** Without a non-losing move the opponent wins on its next move. *)
Lemma no_non_losing_score (P : Position) :
  valid P -> canWinNext P = false -> possibleNonLosingMoves P = 0 ->
  true_score P = Z.quot (- (WIDTH * HEIGHT - nbMoves P)) 2.
Proof.
  intros HP Hw H0. pose proof (nbMoves_range P HP) as R.
  destruct (legal_moves P) as [| m0 ms] eqn:El.
  - rewrite (true_score_unfold P HP Hw), El. cbn.
    destruct (Z.eq_dec (nbMoves P) (WIDTH * HEIGHT)) as [E | N].
    + rewrite E. zdiv.
    + exfalso. apply (move_exists P HP); [lia | assumption].
  - destruct (true_score_reached P HP Hw) as (m & Hm & ->); [congruence |].
    apply losing_move_value; auto.
    pose proof Hm as Hm'. apply legal_moves_In in Hm'.
    destruct Hm' as (col & Hc & -> & Hnz).
    pose proof (non_losing_in P col HP Hw Hc) as E.
    rewrite H0, Z.land_0_l in E. apply Z.eqb_neq in Hnz. rewrite Hnz in E.
    cbn in E. destruct (canWinNext (play P (move_in P col))); [reflexivity |].
    apply Z.eqb_neq in Hnz. congruence.
Qed.

Lemma non_losing_exists (P : Position) :
  valid P -> canWinNext P = false -> possibleNonLosingMoves P <> 0 ->
  exists m, non_losing P m.
Proof.
  intros HP Hw Hnz.
  destruct (forallb (fun col => Z.land (possibleNonLosingMoves P) (column_mask col) =? 0)
                    columns) eqn:E.
  - exfalso. apply Hnz. apply (non_losing_none P HP).
    intros col Hc. rewrite forallb_forall in E. apply Z.eqb_eq. auto.
  - assert (Hex : existsb (fun col => negb (Z.land (possibleNonLosingMoves P)
                                                  (column_mask col) =? 0))
                          columns = true).
    { clear -E. induction columns as [| c l IH]; cbn in *; [congruence |].
      destruct (Z.land _ (column_mask c) =? 0); cbn in *; auto. }
    apply existsb_exists in Hex. destruct Hex as (col & Hc & Hcol).
    apply negb_true_iff, Z.eqb_neq in Hcol.
    eexists. apply (non_losing_column P col); eauto.
Qed.

(** With a non-losing move at hand, the score is the best value of the
    non-losing moves, and it lies between the two bounds of lines 52
    and 58. *)
Lemma non_losing_score (P : Position) :
  valid P -> canWinNext P = false -> possibleNonLosingMoves P <> 0 ->
  (forall m, non_losing P m -> move_value P m <= true_score P) /\
  (exists m, non_losing P m /\ true_score P = move_value P m) /\
  Z.quot (- (WIDTH * HEIGHT - 2 - nbMoves P)) 2 <= true_score P
    <= Z.quot (WIDTH * HEIGHT - 1 - nbMoves P) 2.
Proof.
  intros HP Hw Hnz. pose proof (nbMoves_range P HP) as R.
  destruct (non_losing_exists P HP Hw Hnz) as (m1 & Hm1).
  pose proof (non_losing_move_value P m1 HP Hw Hm1) as B1.
  pose proof (move_value_le P m1 HP Hw (proj1 Hm1)) as U1.
  pose proof (score_upper_no_win P HP Hw) as U.
  split; [| split; [| lia]].
  - intros m (Hm & _). apply move_value_le; assumption.
  - destruct (true_score_reached P HP Hw) as (m & Hm & E).
    { destruct Hm1 as (Hin & _). intros E0. rewrite E0 in Hin. destruct Hin. }
    destruct (canWinNext (play P m)) eqn:El.
    + exists m1. split; [assumption |].
      rewrite (losing_move_value P m HP Hw Hm El) in E. zdiv.
    + exists m. split; [split |]; assumption.
Qed.

(** Line 49: with at most two cells left and a non-losing move, the
    game is drawn. *)
Lemma draw_score (P : Position) :
  valid P -> canWinNext P = false -> possibleNonLosingMoves P <> 0 ->
  WIDTH * HEIGHT - 2 <= nbMoves P ->
  true_score P = 0.
Proof.
  intros HP Hw Hnz Hnb. pose proof (nbMoves_range P HP) as R.
  destruct (non_losing_score P HP Hw Hnz) as (_ & _ & B).
  destruct (non_losing_exists P HP Hw Hnz) as (m1 & Hm1 & _).
  pose proof (legal_move_room P m1 HP Hm1). zdiv.
Qed.
End GameFacts.

(** ** The contract, checked position by position *)

Section LawsCheckSound.
Context {PA : PositionAPI}.
Variable eqb : Position -> Position -> bool.
Variable all : list Position.
Hypothesis eqb_eq : forall a b, eqb a b = true -> a = b.

Lemma check_position_true (P : Position) :
  check_position eqb all P = true ->
  0 <= nbMoves P <= WIDTH * HEIGHT /\
  (legal_moves P = [] <-> nbMoves P = WIDTH * HEIGHT) /\
  (canWinNext P = true -> nbMoves P < WIDTH * HEIGHT) /\
  ((forall col, In col columns ->
                Z.land (possibleNonLosingMoves P) (column_mask col) = 0) ->
   possibleNonLosingMoves P = 0) /\
  MIN_SCORE <= true_score P <= MAX_SCORE /\
  (forall col, In col columns -> check_column eqb all P col = true) /\
  (forall Q, In Q all -> key P = key Q -> P = Q).
Proof.
  unfold check_position. rewrite !andb_true_iff.
  intros ((((((((H1 & H2) & H3) & H4) & H5) & H6) & H7) & H8) & H9).
  apply Z.leb_le in H1, H2, H6, H7.
  rewrite forallb_forall in H8, H9.
  repeat split; try assumption.
  - intros E. rewrite E in H3. apply Z.eqb_eq in H3. exact H3.
  - intros E. destruct (legal_moves P); [reflexivity |].
    apply negb_true_iff, Z.eqb_neq in H3. congruence.
  - intros Hw. rewrite Hw in H4. cbn in H4. apply Z.ltb_lt in H4. exact H4.
  - intros Hall.
    assert (E : forallb (fun col => Z.land (possibleNonLosingMoves P)
                                           (column_mask col) =? 0) columns = true).
    { apply forallb_forall. intros col Hc. apply Z.eqb_eq. auto. }
    rewrite E in H5. cbn in H5. apply Z.eqb_eq in H5. exact H5.
  - intros Q HQ E. specialize (H9 Q HQ). apply Z.eqb_eq in E. rewrite E in H9.
    cbn in H9. apply eqb_eq. exact H9.
Qed.

Lemma check_column_true (P : Position) (col : Z) :
  check_column eqb all P col = true ->
  (move_in P col <> 0 ->
   nbMoves (play P (move_in P col)) = nbMoves P + 1 /\
   (canWinNext P = false -> In (play P (move_in P col)) all)) /\
  (canWinNext P = false ->
   Z.land (possibleNonLosingMoves P) (column_mask col) =
   if (move_in P col =? 0) || canWinNext (play P (move_in P col))
   then 0 else move_in P col).
Proof.
  unfold check_column. cbv zeta. rewrite andb_true_iff. intros (H1 & H2). split.
  - intros Hnz. apply Z.eqb_neq in Hnz. rewrite Hnz in H1. cbn in H1.
    apply andb_true_iff in H1. destruct H1 as (H1 & H1').
    apply Z.eqb_eq in H1. split; [assumption |].
    intros Hw. rewrite Hw in H1'. cbn in H1'.
    apply existsb_exists in H1'. destruct H1' as (Q & HQ & E).
    apply eqb_eq in E. rewrite E. exact HQ.
  - intros Hw. rewrite Hw in H2. cbn in H2. apply Z.eqb_eq in H2. exact H2.
Qed.

(** A set of positions that passes the check satisfies the contract. *)
Lemma check_laws_sound :
  check_laws eqb all = true -> PositionLaws (fun P => In P all).
Proof.
  unfold check_laws, check_constants. rewrite !andb_true_iff.
  intros ((((C1 & C2) & C3) & C4) & Hall).
  apply Z.leb_le in C1, C2, C3, C4. rewrite forallb_forall in Hall.
  constructor; try assumption.
  - intros P HP. apply (check_position_true P (Hall P HP)).
  - intros P col HP Hc Hnz.
    destruct (check_position_true P (Hall P HP)) as (_ & _ & _ & _ & _ & Hcol & _).
    apply (check_column_true P col (Hcol col Hc)). exact Hnz.
  - intros P col HP Hw Hc Hnz.
    destruct (check_position_true P (Hall P HP)) as (_ & _ & _ & _ & _ & Hcol & _).
    apply (check_column_true P col (Hcol col Hc)); assumption.
  - intros P HP E.
    apply (check_position_true P (Hall P HP)). exact E.
  - intros P HP Hlt E.
    apply (check_position_true P (Hall P HP)) in E. lia.
  - intros P HP. apply (check_position_true P (Hall P HP)).
  - intros P col HP Hw Hc.
    destruct (check_position_true P (Hall P HP)) as (_ & _ & _ & _ & _ & Hcol & _).
    apply (check_column_true P col (Hcol col Hc)). exact Hw.
  - intros P HP. apply (check_position_true P (Hall P HP)).
  - intros P Q HP HQ. apply (check_position_true P (Hall P HP)). exact HQ.
  - intros P HP. apply (check_position_true P (Hall P HP)).
Qed.
End LawsCheckSound.

Lemma board_eqb_eq (a b : Bitboard.board) : Bitboard.board_eqb a b = true -> a = b.
Proof.
  destruct a, b. unfold Bitboard.board_eqb. cbn.
  rewrite !andb_true_iff, !Z.eqb_eq. intros ((-> & ->) & ->). reflexivity.
Qed.

(** The positions of the 4 by 2 board satisfy the contract. *)
Lemma Connect4x2_laws :
  @PositionLaws Connect4x2 (fun P => In P (Bitboard.reachable 4 2)).
Proof.
  apply (@check_laws_sound Connect4x2 Bitboard.board_eqb _ board_eqb_eq).
  vm_compute. reflexivity.
Qed.

(** ** The moves the sorter delivers *)

Lemma MoveSorter_add_In (entries : list (Z * Z)) (move score : Z) (x : Z * Z) :
  In x (MoveSorter_add entries move score) <-> x = (move, score) \/ In x entries.
Proof.
  induction entries as [| e rest IH]; cbn.
  - intuition congruence.
  - destruct (snd e >? score); cbn; [intuition congruence |].
    rewrite IH. intuition congruence.
Qed.

Lemma MoveSorter_visit_In (entries : list (Z * Z)) (m : Z) :
  In m (MoveSorter_visit entries) <-> exists s, In (m, s) entries.
Proof.
  unfold MoveSorter_visit. rewrite in_map_iff. split.
  - intros ([m' s] & <- & Hin). exists s. apply in_rev. exact Hin.
  - intros (s & Hin). exists (m, s). split; [reflexivity |].
    apply in_rev. rewrite rev_involutive. exact Hin.
Qed.

Section SorterFill.
Context {PA : PositionAPI}.

Lemma sorter_fold_In (P : Position) (mask : Z) (cols : list Z)
      (acc : list (Z * Z)) (x : Z * Z) :
  In x (fold_left
          (fun entries col =>
             let move := Z.land mask (column_mask col) in
             if move =? 0 then entries
             else MoveSorter_add entries move (moveScore P move))
          cols acc) <->
  In x acc \/
  exists col, In col cols /\ Z.land mask (column_mask col) <> 0 /\
              x = (Z.land mask (column_mask col),
                   moveScore P (Z.land mask (column_mask col))).
Proof.
  revert acc. induction cols as [| c cols IH]; intros acc; cbn [fold_left].
  - split; [auto | intros [H | (col & [] & _)]; exact H].
  - rewrite IH. cbv zeta.
    destruct (Z.land mask (column_mask c) =? 0) eqn:E.
    + apply Z.eqb_eq in E. split.
      * intros [H | (col & Hc & Hnz & ->)]; [auto |].
        right. exists col. cbn. auto.
      * intros [H | (col & [<- | Hc] & Hnz & ->)]; [auto | congruence |].
        right. exists col. auto.
    + apply Z.eqb_neq in E. rewrite MoveSorter_add_In. split.
      * intros [[-> | H] | (col & Hc & Hnz & ->)]; [| auto |].
        -- right. exists c. cbn. auto.
        -- right. exists col. cbn. auto.
      * intros [H | (col & [<- | Hc] & Hnz & ->)]; [auto | auto |].
        right. exists col. auto.
Qed.

(** The sorter delivers exactly the non-zero moves of the mask in the
    columns of the order. *)
Lemma sorter_visit_In (P : Position) (mask : Z) (order : list Z) (m : Z) :
  In m (MoveSorter_visit (sorter_fill P mask order)) <->
  exists col, In col order /\ m = Z.land mask (column_mask col) /\ m <> 0.
Proof.
  rewrite MoveSorter_visit_In. unfold sorter_fill. split.
  - intros (s & Hin). apply sorter_fold_In in Hin.
    destruct Hin as [[] | (col & Hc & Hnz & E)]. inversion E; subst.
    exists col. split; [apply in_rev; assumption | auto].
  - intros (col & Hc & -> & Hnz). eexists. apply sorter_fold_In.
    right. exists col. split; [apply in_rev; rewrite rev_involutive; assumption |].
    split; [assumption | reflexivity].
Qed.
End SorterFill.

(** ** Narrowing the window *)

Lemma raise_alpha_window (lb alpha beta alpha' beta' : Z) :
  alpha < beta -> raise_alpha lb alpha beta = Window alpha' beta' ->
  alpha' = Z.max alpha lb /\ beta' = beta /\ alpha' < beta'.
Proof.
  unfold raise_alpha. intros Hab.
  destruct (alpha <? lb) eqn:E1; [destruct (lb >=? beta) eqn:E2 |];
    intros E; inversion E; subst; clear E;
    repeat match goal with
           | H : (_ <? _) = _ |- _ => first [apply Z.ltb_lt in H | apply Z.ltb_ge in H]
           | H : (_ >=? _) = false |- _ => rewrite Z.geb_leb in H; apply Z.leb_gt in H
           end; lia.
Qed.

Lemma raise_alpha_cut (lb alpha beta v : Z) :
  raise_alpha lb alpha beta = Cut v -> v = lb /\ alpha < lb /\ beta <= lb.
Proof.
  unfold raise_alpha.
  destruct (alpha <? lb) eqn:E1; [destruct (lb >=? beta) eqn:E2 |];
    intros E; inversion E; subst; clear E.
  apply Z.ltb_lt in E1. apply Z.geb_le in E2. lia.
Qed.

Lemma lower_beta_window (ub alpha beta alpha' beta' : Z) :
  alpha < beta -> lower_beta ub alpha beta = Window alpha' beta' ->
  alpha' = alpha /\ beta' = Z.min beta ub /\ alpha' < beta'.
Proof.
  unfold lower_beta. intros Hab.
  destruct (beta >? ub) eqn:E1; [destruct (alpha >=? ub) eqn:E2 |];
    intros E; inversion E; subst; clear E;
    repeat match goal with
           | H : (_ >? _) = true |- _ => apply Z.gtb_lt in H
           | H : (_ >? _) = false |- _ => rewrite Z.gtb_ltb in H; apply Z.ltb_ge in H
           | H : (_ >=? _) = false |- _ => rewrite Z.geb_leb in H; apply Z.leb_gt in H
           end; lia.
Qed.

Lemma lower_beta_cut (ub alpha beta v : Z) :
  lower_beta ub alpha beta = Cut v -> v = ub /\ ub < beta /\ ub <= alpha.
Proof.
  unfold lower_beta.
  destruct (beta >? ub) eqn:E1; [destruct (alpha >=? ub) eqn:E2 |];
    intros E; inversion E; subst; clear E.
  apply Z.gtb_lt in E1. apply Z.geb_le in E2. lia.
Qed.

(** A result that is right for the narrowed window is right for the
    original one, when the narrowing used a true bound of the score. *)
Lemma post_raise (s lb alpha beta v : Z) :
  lb <= s -> negamax_post s (Z.max alpha lb) beta v -> negamax_post s alpha beta v.
Proof. unfold negamax_post. intros Hlb (H1 & H2 & H3). repeat split; lia. Qed.

Lemma post_lower (s ub alpha beta v : Z) :
  s <= ub -> negamax_post s alpha (Z.min beta ub) v -> negamax_post s alpha beta v.
Proof. unfold negamax_post. intros Hub (H1 & H2 & H3). repeat split; lia. Qed.

Lemma post_cut_raise (s lb alpha beta : Z) :
  lb <= s -> alpha < lb -> beta <= lb -> negamax_post s alpha beta lb.
Proof. unfold negamax_post. intros. repeat split; lia. Qed.

Lemma post_cut_lower (s ub alpha beta : Z) :
  s <= ub -> ub < beta -> ub <= alpha -> negamax_post s alpha beta ub.
Proof. unfold negamax_post. intros. repeat split; lia. Qed.

Lemma post_exact (s alpha beta : Z) : negamax_post s alpha beta s.
Proof. unfold negamax_post. repeat split; lia. Qed.

Section TableFacts.
Context {PA : PositionAPI} {BT : BookTableAPI}.
Context (valid : Position -> Prop) {L : PositionLaws valid}.

Lemma narrow_by_table_window (val alpha beta alpha' beta' : Z) :
  alpha < beta -> narrow_by_table val alpha beta = Window alpha' beta' ->
  alpha <= alpha' /\ beta' <= beta /\ alpha' < beta'.
Proof.
  unfold narrow_by_table. intros Hab.
  destruct (val =? 0); [intros E; inversion E; subst; lia |].
  destruct (is_lower_bound MIN_SCORE MAX_SCORE val); intros E.
  - apply raise_alpha_window in E; lia.
  - apply lower_beta_window in E; lia.
Qed.

Lemma narrow_by_table_sound (s val alpha beta : Z) :
  entry_sound val s -> alpha < beta ->
  match narrow_by_table val alpha beta with
  | Cut v => negamax_post s alpha beta v
  | Window alpha' beta' =>
    forall v, negamax_post s alpha' beta' v -> negamax_post s alpha beta v
  end.
Proof.
  unfold narrow_by_table, entry_sound. intros Hs Hab.
  destruct (val =? 0) eqn:E0; [auto |].
  apply Z.eqb_neq in E0.
  destruct Hs as [? | [(Hl & Hs) | (Hl & Hs)]]; [congruence | |]; rewrite Hl.
  - destruct (raise_alpha _ alpha beta) as [v | a' b'] eqn:E.
    + apply raise_alpha_cut in E. destruct E as (-> & ? & ?).
      apply post_cut_raise; assumption.
    + apply raise_alpha_window in E; [| assumption].
      destruct E as (-> & -> & _). intros v. apply post_raise. assumption.
  - destruct (lower_beta _ alpha beta) as [v | a' b'] eqn:E.
    + apply lower_beta_cut in E. destruct E as (-> & ? & ?).
      apply post_cut_lower; assumption.
    + apply lower_beta_window in E; [| assumption].
      destruct E as (-> & -> & _). intros v. apply post_lower. assumption.
Qed.

(** A lower bound from one below [MIN_SCORE] on, stored by line 102,
    is read back as a true statement. *)
Lemma lower_store_sound (s v : Z) :
  MIN_SCORE <= s <= MAX_SCORE -> MIN_SCORE - 1 <= v <= s ->
  entry_sound (to_uint8 (lower_bound_code MIN_SCORE MAX_SCORE v)) s.
Proof.
  intros Hs Hv. pose proof codes_fit_byte as F.
  unfold entry_sound, to_uint8, lower_bound_code, is_lower_bound,
    decode_lower, decode_upper.
  rewrite Z.mod_small by lia.
  destruct (Z.eq_dec v (MIN_SCORE - 1)) as [-> | N].
  - right. right. split; [apply Z.ltb_ge |]; lia.
  - right. left. split; [apply Z.ltb_lt |]; lia.
Qed.

(** An upper bound up to one above [MAX_SCORE], stored by line 109, is
    read back as a true statement. *)
Lemma upper_store_sound (s v : Z) :
  MIN_SCORE <= s <= MAX_SCORE -> s <= v <= MAX_SCORE + 1 ->
  entry_sound (to_uint8 (upper_bound_code MIN_SCORE v)) s.
Proof.
  intros Hs Hv. pose proof codes_fit_byte as F.
  unfold entry_sound, to_uint8, upper_bound_code, is_lower_bound,
    decode_lower, decode_upper.
  rewrite Z.mod_small by lia.
  destruct (Z.eq_dec v (MAX_SCORE + 1)) as [-> | N].
  - right. left. split; [apply Z.ltb_lt |]; lia.
  - right. right. split; [apply Z.ltb_ge |]; lia.
Qed.

Lemma TT_get_put (tt : gmap Z Z) (k k' v : Z) :
  TT_get (TT_put tt k v) k' = if Z.eq_dec k' k then to_uint8 v else TT_get tt k'.
Proof.
  unfold TT_get, TT_put. destruct (Z.eq_dec k' k) as [-> | N].
  - rewrite lookup_insert_eq. reflexivity.
  - rewrite lookup_insert_ne by congruence. reflexivity.
Qed.

Lemma table_sound_put (tt : gmap Z Z) (P : Position) (code : Z) :
  table_sound valid tt -> valid P ->
  entry_sound (to_uint8 code) (true_score P) ->
  table_sound valid (TT_put tt (key P) code).
Proof.
  intros Ht HP He Q HQ. rewrite TT_get_put.
  destruct (Z.eq_dec (key Q) (key P)) as [E | N]; [| apply Ht; assumption].
  rewrite (key_injective Q P HQ HP E). exact He.
Qed.

Lemma table_sound_empty : table_sound valid ∅.
Proof. intros P _. left. reflexivity. Qed.
End TableFacts.

(** ** Correctness of [negamax] *)

Section NegamaxCorrect.
Context {PA : PositionAPI} {BT : BookTableAPI}.
Context (valid : Position -> Prop) {L : PositionLaws valid}.

Lemma search_ok_weaken (sound sound' : Prop) rec n :
  (sound -> sound') -> search_ok valid sound' rec n -> search_ok valid sound rec n.
Proof.
  intros Himp H tt P a b HP Hw Hab Hn.
  destruct (H tt P a b HP Hw Hab Hn) as (v & tt' & E & Hs).
  exists v, tt'. split; [assumption |]. auto.
Qed.

Lemma non_losing_child (P : Position) (m : Z) :
  valid P -> canWinNext P = false -> non_losing P m ->
  valid (play P m) /\ canWinNext (play P m) = false /\
  cells_left P = S (cells_left (play P m)).
Proof.
  intros HP Hw (Hm & Hl).
  destruct (legal_move_child valid P m HP Hw Hm) as (Hv & _).
  repeat split; auto. apply (cells_left_play valid); assumption.
Qed.

(** The loop over the moves: it ends with a store under the key of the
    position, and its result is a cut-off value or the best value seen. *)
Lemma negamax_moves_ok (sound : Prop) rec (n : nat) (P : Position) (beta : Z) :
  search_ok valid sound rec n ->
  valid P -> canWinNext P = false -> (cells_left P <= n)%nat ->
  forall moves tt alpha,
    (forall m, In m moves -> non_losing P m) -> alpha < beta ->
    exists v tt'',
      negamax_moves rec P beta moves tt alpha =
        Some (v, TT_put tt'' (key P) (stored_code beta v)) /\
      (sound -> table_sound valid tt ->
       table_sound valid tt'' /\ moves_outcome P moves alpha beta v).
Proof.
  intros Hrec HP Hw Hn. induction moves as [| m rest IH]; intros tt alpha Hnl Hab.
  - exists alpha, tt. cbn [negamax_moves]. unfold stored_code.
    replace (alpha >=? beta) with false
      by (symmetry; rewrite Z.geb_leb; apply Z.leb_gt; lia).
    split; [reflexivity |]. intros _ Ht. split; [assumption |].
    right. repeat split; [lia | lia | intros m [] | auto].
  - cbn [negamax_moves].
    destruct (non_losing_child P m HP Hw (Hnl m (or_introl eq_refl)))
      as (Hv & Hl & Hc).
    destruct (Hrec tt (play P m) (- beta) (- alpha) Hv Hl ltac:(lia) ltac:(lia))
      as (r & tt1 & -> & Hs1).
    destruct (- r >=? beta) eqn:Ecut.
    + apply Z.geb_le in Ecut. exists (- r), tt1. unfold stored_code.
      replace (- r >=? beta) with true by (symmetry; apply Z.geb_le; lia).
      split; [reflexivity |]. intros Hsound Ht.
      destruct (Hs1 Hsound Ht) as (Ht1 & H1 & H2 & H3).
      split; [assumption |]. left. split; [lia |].
      exists m. split; [left; reflexivity |]. unfold move_value.
      destruct (Z_le_gt_dec (true_score (play P m)) (- beta)); lia.
    + rewrite Z.geb_leb in Ecut. apply Z.leb_gt in Ecut.
      set (alpha' := if - r >? alpha then - r else alpha).
      assert (Ha' : alpha' = Z.max alpha (- r)).
      { unfold alpha'. destruct (- r >? alpha) eqn:E.
        - apply Z.gtb_lt in E. lia.
        - rewrite Z.gtb_ltb in E. apply Z.ltb_ge in E. lia. }
      destruct (IH tt1 alpha' (fun m' H => Hnl m' (or_intror H)) ltac:(lia))
        as (v & tt2 & -> & Hs2).
      exists v, tt2. split; [reflexivity |]. intros Hsound Ht.
      destruct (Hs1 Hsound Ht) as (Ht1 & H1 & H2 & H3).
      destruct (Hs2 Hsound Ht1) as (Ht2 & Hout).
      split; [assumption |].
      assert (Hm : move_value P m <= Z.max alpha (- r) /\
                   (alpha < - r -> - r = move_value P m)).
      { unfold move_value.
        destruct (Z_le_gt_dec (true_score (play P m)) (- beta));
          destruct (Z_le_gt_dec (- alpha) (true_score (play P m))); lia. }
      destruct Hout as [(Hb & m' & Hin & Hle) | (Hb & Hge & Hall & Hv')].
      * left. split; [assumption |]. exists m'. split; [right |]; assumption.
      * right. repeat split; [assumption | lia | |].
        -- intros m' [<- | Hin]; [lia | auto].
        -- destruct Hv' as [E | (m' & Hin & E)].
           ++ destruct (Z_le_gt_dec (- r) alpha).
              ** left. lia.
              ** right. exists m. split; [left; reflexivity | lia].
           ++ right. exists m'. split; [right |]; assumption.
Qed.

Variable book : OpeningBook.
Hypothesis Hbook : book_defined valid book.

(** The moves the loop of a position visits are its non-losing moves. *)
Lemma visited_non_losing (P : Position) (m : Z) :
  valid P -> canWinNext P = false ->
  (In m (MoveSorter_visit (sorter_fill P (possibleNonLosingMoves P) (columnOrder WIDTH)))
   <-> non_losing P m).
Proof.
  intros HP Hw. rewrite sorter_visit_In. split.
  - intros (col & Hc & -> & Hnz). apply (non_losing_column valid); auto.
    apply columns_In. apply columnOrder_In. assumption.
  - intros Hm. destruct (non_losing_has_column valid P m HP Hw Hm) as (col & Hc & Hnz & E).
    exists col. repeat split; auto. apply columnOrder_In. apply columns_In. assumption.
Qed.

(** [negamax] answers on every position in which nobody has won and the
    side to move cannot win at once, whatever the depth budget; with
    an unlimited budget and sound caches the table stays sound and the
    answer is the one its header comment promises. *)
Lemma negamax_ok (fuel : nat) :
  forall depth,
    search_ok valid (depth < 0 /\ book_sound valid book)
              (fun tt P a b => negamax fuel book (columnOrder WIDTH) tt P a b depth)
              fuel.
Proof.
  induction fuel as [| fuel IH]; intros depth tt P alpha beta HP Hw Hab Hn; [lia |].
  pose proof (nbMoves_range P HP) as R.
  cbn [negamax]. cbv zeta.
  rewrite (proj2 (Z.ltb_lt alpha beta) Hab), Hw. cbn [negb].
  destruct (possibleNonLosingMoves P =? 0) eqn:E0.
  { apply Z.eqb_eq in E0. eexists _, tt. split; [reflexivity |].
    intros _ Ht. split; [assumption |].
    rewrite <- (no_non_losing_score valid P HP Hw E0). apply post_exact. }
  apply Z.eqb_neq in E0.
  destruct (non_losing_score valid P HP Hw E0) as (Hall & Hex & Hlo & Hhi).
  destruct (nbMoves P >=? WIDTH * HEIGHT - 2) eqn:Ed.
  { apply Z.geb_le in Ed. exists 0, tt. split; [reflexivity |].
    intros _ Ht. split; [assumption |].
    rewrite <- (draw_score valid P HP Hw E0 Ed). apply post_exact. }
  rewrite Z.geb_leb in Ed. apply Z.leb_gt in Ed.
  set (min := Z.quot (- (WIDTH * HEIGHT - 2 - nbMoves P)) 2) in *.
  set (max := Z.quot (WIDTH * HEIGHT - 1 - nbMoves P) 2) in *.
  destruct (raise_alpha min alpha beta) as [v | a1 b1] eqn:E1.
  { exists v, tt. split; [reflexivity |]. intros _ Ht. split; [assumption |].
    apply raise_alpha_cut in E1. destruct E1 as (-> & ? & ?).
    apply post_cut_raise; assumption. }
  apply raise_alpha_window in E1; [| assumption]. destruct E1 as (Ea1 & Eb1 & Hab1).
  destruct (lower_beta max a1 b1) as [v | a2 b2] eqn:E2.
  { exists v, tt. split; [reflexivity |]. intros _ Ht. split; [assumption |].
    apply lower_beta_cut in E2. destruct E2 as (-> & ? & ?). subst a1 b1.
    apply post_raise with (lb := min); [assumption |].
    apply post_cut_lower; assumption. }
  apply lower_beta_window in E2; [| assumption]. destruct E2 as (Ea2 & Eb2 & Hab2).
  assert (Hchain : forall v, negamax_post (true_score P) a2 b2 v ->
                             negamax_post (true_score P) alpha beta v).
  { intros v Hv. subst a2 b2 a1 b1.
    apply post_raise with (lb := min); [assumption |].
    apply post_lower with (ub := max); assumption. }
  destruct (narrow_by_table (TT_get tt (key P)) a2 b2) as [v | a3 b3] eqn:E3.
  { exists v, tt. split; [reflexivity |]. intros _ Ht. split; [assumption |].
    pose proof (narrow_by_table_sound (true_score P) _ a2 b2 (Ht P HP) Hab2) as H3.
    rewrite E3 in H3. auto. }
  destruct (narrow_by_table_window _ _ _ _ _ Hab2 E3) as (Ha3 & Hb3 & Hab3).
  destruct (Hbook P HP) as (val & Eb). rewrite Eb.
  destruct (val =? 0) eqn:Ev; cbn [negb].
  2: { exists (val + MIN_SCORE - 1), tt. split; [reflexivity |].
       intros (Hd & Hbs) Ht. split; [assumption |].
       destruct (Hbs P HP) as (val' & Eb' & Hval). rewrite Eb in Eb'.
       inversion Eb'; subst val'. apply Z.eqb_neq in Ev.
       destruct Hval as [? | Hval]; [congruence |]. rewrite Hval. apply post_exact. }
  destruct (depth =? 0) eqn:Edep.
  { exists 0, tt. split; [reflexivity |]. intros (Hd & _).
    apply Z.eqb_eq in Edep. lia. }
  set (depth' := if depth >? 0 then depth - 1 else depth).
  set (moves := MoveSorter_visit _).
  assert (Hrec : search_ok valid (depth < 0 /\ book_sound valid book)
                   (fun tt P2 a b => negamax fuel book (columnOrder WIDTH) tt P2 a b depth')
                   fuel).
  { apply search_ok_weaken with (sound' := depth' < 0 /\ book_sound valid book);
      [| apply IH].
    intros (Hd & Hbs). split; [| assumption]. unfold depth'.
    destruct (depth >? 0) eqn:Eg; [apply Z.gtb_lt in Eg |]; lia. }
  destruct (negamax_moves_ok _ _ fuel P b3 Hrec HP Hw ltac:(lia) moves tt a3)
    as (v & tt2 & -> & Hs); [| assumption |].
  { intros m Hin. apply (visited_non_losing P m HP Hw). exact Hin. }
  exists v, (TT_put tt2 (key P) (stored_code b3 v)). split; [reflexivity |].
  intros Hsound Ht. destruct (Hs Hsound Ht) as (Ht2 & Hout).
  pose proof (score_range P HP) as Hrange.
  pose proof min_score_low as Hmin. pose proof max_score_high as Hmax.
  pose proof (narrow_by_table_sound (true_score P) _ a2 b2 (Ht P HP) Hab2) as H3.
  rewrite E3 in H3.
  assert (Hcases : (b3 <= v <= true_score P) \/
                   (v < b3 /\ a3 <= v /\ true_score P <= v /\
                    (v = a3 \/ v <= true_score P))).
  { destruct Hout as [(Hb & m & Hin & Hle) | (Hb & Hge & Hall' & Hv')].
    - left. apply (visited_non_losing P m HP Hw) in Hin.
      specialize (Hall m Hin). lia.
    - right. destruct Hex as (m & Hm & Es).
      pose proof (proj2 (visited_non_losing P m HP Hw) Hm) as Hin.
      specialize (Hall' m Hin). repeat split; [assumption | assumption | lia |].
      destruct Hv' as [? | (m' & Hin' & E')]; [left; assumption | right].
      apply (visited_non_losing P m' HP Hw) in Hin'. specialize (Hall m' Hin'). lia. }
  split.
  - apply (table_sound_put valid); [assumption | assumption |].
    unfold stored_code. destruct Hcases as [Hc | (Hc1 & Hc2 & Hc3 & Hc4)].
    + replace (v >=? b3) with true by (symmetry; apply Z.geb_le; lia).
      apply (lower_store_sound valid); [assumption |].
      subst a2 b2 a1 b1. subst min max. split; [zdiv | lia].
    + replace (v >=? b3) with false
        by (symmetry; rewrite Z.geb_leb; apply Z.leb_gt; lia).
      apply (upper_store_sound valid); [assumption |].
      subst a2 b2 a1 b1. subst min max. split; [lia | zdiv].
  - apply Hchain, H3. unfold negamax_post.
    destruct Hcases as [Hc | (Hc1 & Hc2 & Hc3 & Hc4)]; repeat split; lia.
Qed.
End NegamaxCorrect.

(** ** The binary search of [solve] *)

Section SolveLoop.
Context {PA : PositionAPI} {BT : BookTableAPI}.

(** The probe value lies in the interval and below its upper end. *)
Lemma midpoint_between (min max : Z) :
  min < max -> min <= midpoint min max < max.
Proof.
  intros Hlt. unfold midpoint.
  repeat match goal with
         | |- context [if ?c then _ else _] => destruct c eqn:?
         end;
    repeat match goal with
           | H : (_ && _) = true |- _ => apply andb_true_iff in H; destruct H
           | H : (_ <=? _) = true |- _ => apply Z.leb_le in H
           | H : (_ >=? _) = true |- _ => apply Z.geb_le in H
           | H : (_ <? _) = true |- _ => apply Z.ltb_lt in H
           | H : (_ >? _) = true |- _ => apply Z.gtb_lt in H
           end; zdiv.
Qed.

(** Whatever the probes answer, the loop is left after at most
    [max - min] iterations. *)
Lemma solve_loop_total (n : nat) probe :
  (forall tt med, exists r tt', probe tt med = Some (r, tt')) ->
  forall tt min max,
    max - min <= Z.of_nat n ->
    exists lo hi tt', solve_loop n probe tt min max = Some (lo, hi, tt') /\
                      min <= lo /\ hi <= max.
Proof.
  intros Hp. induction n as [| n IH]; intros tt min max Hn; cbn [solve_loop].
  - destruct (min <? max) eqn:E.
    + apply Z.ltb_lt in E. lia.
    + apply Z.ltb_ge in E. exists min, max, tt. repeat split; lia.
  - destruct (min <? max) eqn:E.
    + apply Z.ltb_lt in E.
      pose proof (midpoint_between min max E) as Hm.
      destruct (Hp tt (midpoint min max)) as (r & tt' & ->).
      destruct (r <=? midpoint min max) eqn:Er.
      * apply Z.leb_le in Er.
        destruct (IH tt' min r ltac:(lia)) as (lo & hi & t2 & -> & ? & ?).
        exists lo, hi, t2. repeat split; lia.
      * apply Z.leb_gt in Er.
        destruct (IH tt' r max ltac:(lia)) as (lo & hi & t2 & -> & ? & ?).
        exists lo, hi, t2. repeat split; lia.
    + apply Z.ltb_ge in E. exists min, max, tt. repeat split; lia.
Qed.

(** With probes that answer as [negamax] promises for a position of
    score [s], and tables that stay within an invariant [I], a search
    started on an interval that holds [s] is left with
    [min = max = s]. *)
Lemma solve_loop_exact (s : Z) (I : gmap Z Z -> Prop) (n : nat) probe :
  (forall tt med, I tt ->
     exists r tt', probe tt med = Some (r, tt') /\ I tt' /\
                   negamax_post s med (med + 1) r) ->
  forall tt min max,
    I tt -> min <= s <= max -> max - min <= Z.of_nat n ->
    exists tt', solve_loop n probe tt min max = Some (s, s, tt') /\ I tt'.
Proof.
  intros Hp. induction n as [| n IH]; intros tt min max Ht Hs Hn; cbn [solve_loop].
  - destruct (min <? max) eqn:E.
    + apply Z.ltb_lt in E. lia.
    + apply Z.ltb_ge in E. exists tt.
      replace min with s by lia. replace max with s by lia. auto.
  - destruct (min <? max) eqn:E.
    + apply Z.ltb_lt in E.
      pose proof (midpoint_between min max E) as Hm.
      destruct (Hp tt (midpoint min max) Ht) as (r & tt' & -> & Ht' & Hlow & Hhigh & _).
      destruct (r <=? midpoint min max) eqn:Er.
      * apply Z.leb_le in Er. apply IH; [assumption | | lia].
        destruct (Z_le_gt_dec s (midpoint min max)); lia.
      * apply Z.leb_gt in Er. apply IH; [assumption | | lia].
        destruct (Z_le_gt_dec s (midpoint min max)); lia.
    + apply Z.ltb_ge in E. exists tt.
      replace min with s by lia. replace max with s by lia. auto.
Qed.

(** The same probes on the interval [-1 .. 1] of a weak search: the
    result is -1 for a negative score, 0 for a zero score, and some
    value from 1 up to the score for a positive one. *)
Lemma solve_loop_weak (s : Z) (I : gmap Z Z -> Prop) (n : nat) probe :
  (forall tt med, I tt ->
     exists r tt', probe tt med = Some (r, tt') /\ I tt' /\
                   negamax_post s med (med + 1) r) ->
  forall tt, I tt ->
    exists lo hi tt', solve_loop (S (S n)) probe tt (-1) 1 = Some (lo, hi, tt') /\
      I tt' /\ (s < 0 -> lo = -1) /\ (s = 0 -> lo = 0) /\ (0 < s -> 1 <= lo <= s).
Proof.
  intros Hp tt Ht.
  cbn [solve_loop]. change (-1 <? 1) with true. cbv iota.
  change (midpoint (-1) 1) with 0.
  destruct (Hp tt 0 Ht) as (r & tt1 & -> & Ht1 & Hlow & Hhigh & _).
  destruct (r <=? 0) eqn:Er.
  - apply Z.leb_le in Er.
    assert (Hs : s <= 0) by (destruct (Z_le_gt_dec s 0); lia).
    specialize (Hlow Hs).
    destruct (-1 <? r) eqn:E1.
    + apply Z.ltb_lt in E1. assert (r = 0) by lia. subst r.
      change (midpoint (-1) 0) with (-1).
      destruct (Hp tt1 (-1) Ht1) as (r2 & tt2 & -> & Ht2 & Hlow2 & Hhigh2 & _).
      change (-1 + 1) with 0 in *.
      destruct (r2 <=? -1) eqn:Er2.
      * apply Z.leb_le in Er2.
        assert (s <= -1) by (destruct (Z_le_gt_dec s (-1)); lia).
        destruct n; cbn [solve_loop];
          (replace (-1 <? r2) with false by (symmetry; apply Z.ltb_ge; lia));
          exists (-1), r2, tt2; repeat split; auto; lia.
      * apply Z.leb_gt in Er2.
        assert (s = 0) by (destruct (Z_le_gt_dec 0 s); lia).
        assert (r2 = 0) by lia. subst r2.
        destruct n; cbn [solve_loop]; change (0 <? 0) with false; cbv iota;
          exists 0, 0, tt2; repeat split; auto; lia.
    + apply Z.ltb_ge in E1.
      exists (-1), r, tt1. repeat split; auto; lia.
  - apply Z.leb_gt in Er.
    assert (Hs : 1 <= s) by (destruct (Z_le_gt_dec 1 s); lia).
    specialize (Hhigh Hs).
    destruct n; cbn [solve_loop];
      (replace (r <? 1) with false by (symmetry; apply Z.ltb_ge; lia));
      exists r, 1, tt1; repeat split; auto; lia.
Qed.
End SolveLoop.

(** ** Early returns *)

Section DirectClaims.
Context {PA : PositionAPI} {BT : BookTableAPI}.

(** C6: when the side to move can complete a win on this turn, [solve]
    returns the fastest-win score [(W*H + 1 - movesPlayed) / 2] for
    every depth budget and both weak settings, without a call of
    [negamax]: the table is returned as it was, also when no fuel is
    left for a search. *)
Theorem solve_immediate_win
        (fuel : nat) (book : OpeningBook) (order : list Z) (tt : gmap Z Z)
        (P : Position) (depth : Z) (weak : bool) :
  canWinNext P = true ->
  solve fuel book order tt P depth weak =
    Some (Z.quot (WIDTH * HEIGHT + 1 - nbMoves P) 2, tt) /\
  solve 0 book order tt P depth weak = solve fuel book order tt P depth weak.
Proof. intros Hw. unfold solve. rewrite Hw. split; reflexivity. Qed.

(** C9: on a position without a legal move, [getBestMove] returns the
    sentinel -1 for every depth budget and both weak settings, and
    leaves the table as it was. *)
Theorem getBestMove_no_move
        (fuel : nat) (book : OpeningBook) (order : list Z) (tt : gmap Z Z)
        (P : Position) (depth : Z) (weak : bool) :
  possible P = 0 ->
  getBestMove fuel book order tt P depth weak = Some (-1, tt).
Proof. intros H0. unfold getBestMove. rewrite H0. reflexivity. Qed.
End DirectClaims.

(** ** Loading the opening book *)

Section BookClaims.
Context {BT : BookTableAPI}.

Lemma char_to_int_byte (c : Byte.byte) (w : Z) :
  0 <= w -> char_to_int c = w -> Z.of_N (Byte.to_N c) = w.
Proof.
  unfold char_to_int. cbv zeta.
  destruct (Z.of_N (Byte.to_N c) <? 128) eqn:E; [auto |].
  apply Z.ltb_ge in E. pose proof (Byte.to_N_bounded c) as B.
  intros Hw Ew. lia.
Qed.

(** X16: on a book whose table pointer does not dangle (a book that
    never loaded, or that holds a table), loading a file whose first
    byte, the recorded width, differs from the width of the book stops
    at the width check: it reports the width as the violated field and
    leaves a book of depth -1 on which [get] answers 0 for every
    position of non-negative move count. *)
Theorem load_rejects_width
        (b : OpeningBook) (c : Byte.byte) (rest : list Byte.byte) :
  T b <> TDangling ->
  0 <= width b ->
  Z.of_N (Byte.to_N c) <> width b ->
  exists b',
    load b (Some (c :: rest)) =
      Some (b', [InvalidWidth (Some (char_to_int c)) (width b)]) /\
    depth b' = -1 /\ width b' = width b /\ height b' = height b /\
    forall (PA : PositionAPI) (P : Position),
      0 <= nbMoves P -> OpeningBook_get b' P = Some 0.
Proof.
  intros Hptr Hw Hdiff. unfold load.
  destruct (delete_ptr (T b)) as [p |] eqn:Ed.
  2: { destruct (T b); cbn in Ed; congruence. }
  unfold read_char, ifs_read. cbn.
  destruct (char_to_int c =? width b) eqn:E.
  - apply Z.eqb_eq in E. apply char_to_int_byte in E; [congruence | assumption].
  - cbn. eexists. split; [reflexivity |]. cbn. repeat split.
    intros PA P HP. unfold OpeningBook_get. cbn.
    replace (nbMoves P >? -1) with true by (symmetry; apply Z.gtb_lt; lia).
    reflexivity.
Qed.

(** C8: on a book of width 7 that holds a table, the load of a file
    whose width byte is 6 frees the table and returns at the width
    check with the pointer to the freed table still in the book.  The
    report and the depth -1 are as claimed and [get] answers 0, but the
    book is not in a safe state: a further [load], of any file, and the
    destructor free the same table a second time, and [save] reads
    through the pointer. *)
Theorem load_wrong_width_dangles
        (tbl : BookTable) (rest : list Byte.byte)
        (file2 : option (list Byte.byte)) :
  exists b',
    load {| T := TLive tbl; width := 7; height := 6; depth := 4 |}
         (Some (Byte.x06 :: rest)) = Some (b', [InvalidWidth (Some 6) 7]) /\
    depth b' = -1 /\
    T b' = TDangling /\
    load b' file2 = None /\
    OpeningBook_destroy b' = None /\
    save b' = None.
Proof. eexists. split; [reflexivity |]. repeat split. Qed.
End BookClaims.

Lemma load_rejects_width_witness :
  exists b',
    @load NoBookTable (OpeningBook_empty 7 6) (Some [Byte.x06; Byte.x06]) =
      Some (b', [InvalidWidth (Some 6) 7]) /\
    depth b' = -1 /\
    @OpeningBook_get NoBookTable Connect4 b' Bitboard.empty = Some 0.
Proof.
  destruct (@load_rejects_width NoBookTable (OpeningBook_empty 7 6) Byte.x06 [Byte.x06])
    as (b' & E & Hd & _ & _ & Hget).
  - cbn. discriminate.
  - cbn. lia.
  - cbn. lia.
  - exists b'. split; [exact E |]. split; [exact Hd |].
    apply (Hget Connect4 Bitboard.empty). cbn. lia.
Defined.

(** ** The claims on [negamax] and [solve] *)

Section SolverClaims.
Context {PA : PositionAPI} {BT : BookTableAPI}.
Context (valid : Position -> Prop) {L : PositionLaws valid}.

Lemma book_sound_defined (book : OpeningBook) :
  book_sound valid book -> book_defined valid book.
Proof. intros Hb P HP. destruct (Hb P HP) as (val & E & _). eauto. Qed.

(** A book of negative depth misses on every position. *)
Lemma book_miss_sound (book : OpeningBook) :
  depth book < 0 -> book_sound valid book.
Proof.
  intros Hd P HP. exists 0. split; [| left; reflexivity].
  unfold OpeningBook_get. pose proof (nbMoves_range P HP) as R.
  replace (nbMoves P >? depth book) with true
    by (symmetry; apply Z.gtb_lt; lia).
  reflexivity.
Qed.

Lemma probe_total (fuel : nat) (book : OpeningBook) (P : Position) (depth : Z) :
  valid P -> canWinNext P = false -> book_defined valid book ->
  (cells_left P < fuel)%nat ->
  forall tt med, exists r tt',
      negamax fuel book (columnOrder WIDTH) tt P med (med + 1) depth = Some (r, tt').
Proof.
  intros HP Hw Hb Hn tt med.
  destruct (negamax_ok valid book Hb fuel depth tt P med (med + 1) HP Hw
                       ltac:(lia) Hn) as (r & tt' & E & _).
  eauto.
Qed.

Lemma probe_sound (fuel : nat) (book : OpeningBook) (P : Position) (depth : Z) :
  valid P -> canWinNext P = false -> book_sound valid book -> depth < 0 ->
  (cells_left P < fuel)%nat ->
  forall tt med, table_sound valid tt ->
    exists r tt',
      negamax fuel book (columnOrder WIDTH) tt P med (med + 1) depth = Some (r, tt') /\
      table_sound valid tt' /\ negamax_post (true_score P) med (med + 1) r.
Proof.
  intros HP Hw Hb Hd Hn tt med Ht.
  destruct (negamax_ok valid book (book_sound_defined book Hb) fuel depth tt P
                       med (med + 1) HP Hw ltac:(lia) Hn) as (r & tt' & E & Hs).
  exists r, tt'. split; [assumption |]. apply Hs; auto.
Qed.

(** C1: on a position in which nobody has won and the side to move
    cannot win at once, for every window [alpha < beta], an unlimited
    depth budget and sound caches, [negamax] returns a value [v] with:
    [v <= alpha] when the score is at most [alpha], [v >= beta] when
    the score is at least [beta], and [v] the exact score when it lies
    strictly between them.  The table it leaves is sound again. *)
Theorem negamax_window_result
        (fuel : nat) (book : OpeningBook) (tt : gmap Z Z) (P : Position)
        (alpha beta depth : Z) :
  valid P -> canWinNext P = false -> alpha < beta -> depth < 0 ->
  book_sound valid book -> table_sound valid tt ->
  (cells_left P < fuel)%nat ->
  exists v tt',
    negamax fuel book (columnOrder WIDTH) tt P alpha beta depth = Some (v, tt') /\
    (true_score P <= alpha -> v <= alpha) /\
    (beta <= true_score P -> beta <= v) /\
    (alpha < true_score P < beta -> v = true_score P) /\
    table_sound valid tt'.
Proof.
  intros HP Hw Hab Hd Hb Ht Hn.
  destruct (negamax_ok valid book (book_sound_defined book Hb) fuel depth tt P
                       alpha beta HP Hw Hab Hn) as (v & tt' & E & Hs).
  destruct (Hs (conj Hd Hb) Ht) as (Ht' & H1 & H2 & H3).
  exists v, tt'. repeat split; auto; lia.
Qed.

Lemma solve_range_strong (P : Position) :
  valid P ->
  fst (solve_range P false) <= true_score P <= snd (solve_range P false) /\
  snd (solve_range P false) - fst (solve_range P false) <= Z.of_nat (cells_left P).
Proof.
  intros HP. pose proof (score_bounds valid P HP) as B.
  pose proof (nbMoves_range P HP) as R.
  unfold solve_range, cells_left. cbn [fst snd]. split; [exact B | zdiv].
Qed.

Lemma solve_search_total (fuel : nat) (book : OpeningBook) (tt : gmap Z Z)
      (P : Position) (depth : Z) (weak : bool) :
  valid P -> canWinNext P = false -> book_defined valid book ->
  (cells_left P + 2 <= fuel)%nat ->
  exists lo hi tt',
    solve_search fuel book (columnOrder WIDTH) tt P depth weak = Some (lo, hi, tt') /\
    fst (solve_range P weak) <= lo.
Proof.
  intros HP Hw Hb Hn. unfold solve_search.
  destruct (solve_loop_total fuel
              (fun tt med => negamax fuel book (columnOrder WIDTH) tt P med (med + 1) depth)
              (probe_total fuel book P depth HP Hw Hb ltac:(lia))
              tt (fst (solve_range P weak)) (snd (solve_range P weak)))
    as (lo & hi & tt' & E & Hlo & _).
  - destruct weak.
    + unfold solve_range. cbn [fst snd]. lia.
    + pose proof (solve_range_strong P HP). lia.
  - eauto.
Qed.

Lemma solve_search_exact (fuel : nat) (book : OpeningBook) (tt : gmap Z Z)
      (P : Position) (depth : Z) :
  valid P -> canWinNext P = false -> depth < 0 ->
  book_sound valid book -> table_sound valid tt ->
  (cells_left P + 2 <= fuel)%nat ->
  exists tt',
    solve_search fuel book (columnOrder WIDTH) tt P depth false =
      Some (true_score P, true_score P, tt') /\
    table_sound valid tt'.
Proof.
  intros HP Hw Hd Hb Ht Hn. unfold solve_search.
  pose proof (solve_range_strong P HP) as (Hs & Hlen).
  apply (solve_loop_exact (true_score P) (table_sound valid)); auto; [| lia].
  intros tt0 med Ht0.
  apply (probe_sound fuel book P depth HP Hw Hb Hd); [lia | assumption].
Qed.

Lemma solve_search_weak (fuel : nat) (book : OpeningBook) (tt : gmap Z Z)
      (P : Position) (depth : Z) :
  valid P -> canWinNext P = false -> depth < 0 ->
  book_sound valid book -> table_sound valid tt ->
  (cells_left P + 2 <= fuel)%nat ->
  exists lo hi tt',
    solve_search fuel book (columnOrder WIDTH) tt P depth true = Some (lo, hi, tt') /\
    table_sound valid tt' /\
    (true_score P < 0 -> lo = -1) /\ (true_score P = 0 -> lo = 0) /\
    (0 < true_score P -> 1 <= lo <= true_score P).
Proof.
  intros HP Hw Hd Hb Ht Hn. unfold solve_search.
  destruct fuel as [| [| n]]; [lia | lia |].
  change (fst (solve_range P true)) with (-1).
  change (snd (solve_range P true)) with 1.
  apply (solve_loop_weak (true_score P) (table_sound valid)); auto.
  intros tt0 med Ht0.
  apply (probe_sound (S (S n)) book P depth HP Hw Hb Hd); [lia | assumption].
Qed.

(** C3, amended: on a position in which nobody has won and the side to
    move cannot win at once, for both weak settings and every depth
    budget, the loop of [solve] is left: each probe value satisfies
    [min <= med < max], so [max - min] shrinks at every iteration.
    With [weak] false, an unlimited depth budget and sound caches it is
    left with [min = max], and that value is the exact score. *)
Theorem solve_search_terminates
        (fuel : nat) (book : OpeningBook) (tt : gmap Z Z) (P : Position)
        (depth : Z) (weak : bool) :
  valid P -> canWinNext P = false -> book_defined valid book ->
  (cells_left P + 2 <= fuel)%nat ->
  (forall min max, min < max -> min <= midpoint min max < max) /\
  (exists lo hi tt',
      solve_search fuel book (columnOrder WIDTH) tt P depth weak = Some (lo, hi, tt')) /\
  (weak = false -> depth < 0 -> book_sound valid book -> table_sound valid tt ->
   exists tt',
     solve_search fuel book (columnOrder WIDTH) tt P depth weak =
       Some (true_score P, true_score P, tt') /\
     table_sound valid tt').
Proof.
  intros HP Hw Hb Hn. split; [exact midpoint_between | split].
  - destruct (solve_search_total fuel book tt P depth weak HP Hw Hb Hn)
      as (lo & hi & tt' & E & _). eauto.
  - intros -> Hd Hbs Ht. apply solve_search_exact; assumption.
Qed.

Lemma solve_exact (fuel : nat) (book : OpeningBook) (tt : gmap Z Z)
      (P : Position) (depth : Z) :
  valid P -> depth < 0 -> book_sound valid book -> table_sound valid tt ->
  (cells_left P + 2 <= fuel)%nat ->
  exists tt',
    solve fuel book (columnOrder WIDTH) tt P depth false = Some (true_score P, tt') /\
    table_sound valid tt'.
Proof.
  intros HP Hd Hb Ht Hn. unfold solve.
  destruct (canWinNext P) eqn:Hw.
  - exists tt. rewrite (true_score_win P Hw). auto.
  - destruct (solve_search_exact fuel book tt P depth HP Hw Hd Hb Ht Hn)
      as (tt' & -> & Ht'). eauto.
Qed.

(** X15: under the contract of the position class, with an unlimited
    depth budget, [weak] false, a sound book and a sound table (as the
    empty table of a new solver is), [solve] returns the exact score of
    the position and leaves the table sound: a second call on an equal
    position, run on the table the first call has filled, returns the
    identical score. *)
Theorem solve_repeatable
        (fuel : nat) (book : OpeningBook) (tt : gmap Z Z) (P Q : Position)
        (depth : Z) :
  valid P -> P = Q -> depth < 0 ->
  book_sound valid book -> table_sound valid tt ->
  (cells_left P + 2 <= fuel)%nat ->
  exists v tt1 tt2,
    solve fuel book (columnOrder WIDTH) tt P depth false = Some (v, tt1) /\
    solve fuel book (columnOrder WIDTH) tt1 Q depth false = Some (v, tt2) /\
    v = true_score P /\ table_sound valid tt2.
Proof.
  intros HP <- Hd Hb Ht Hn.
  destruct (solve_exact fuel book tt P depth HP Hd Hb Ht Hn) as (tt1 & E1 & Ht1).
  destruct (solve_exact fuel book tt1 P depth HP Hd Hb Ht1 Hn) as (tt2 & E2 & Ht2).
  exists (true_score P), tt1, tt2. auto.
Qed.

(** C4, amended: on a position in which nobody has won, for every
    depth budget, [solve] with [weak] true returns a value that is at
    least -1; with an unlimited depth budget and sound caches it is -1
    when the exact score is negative, 0 when it is zero, and between 1
    and the exact score when it is positive. *)
Theorem solve_weak_result
        (fuel : nat) (book : OpeningBook) (tt : gmap Z Z) (P : Position)
        (depth : Z) :
  valid P -> book_defined valid book ->
  (cells_left P + 2 <= fuel)%nat ->
  exists v tt',
    solve fuel book (columnOrder WIDTH) tt P depth true = Some (v, tt') /\
    -1 <= v /\
    (depth < 0 -> book_sound valid book -> table_sound valid tt ->
     table_sound valid tt' /\
     (true_score P < 0 -> v = -1) /\ (true_score P = 0 -> v = 0) /\
     (0 < true_score P -> 1 <= v <= true_score P)).
Proof.
  intros HP Hb Hn. unfold solve. pose proof (nbMoves_range P HP) as R.
  destruct (canWinNext P) eqn:Hw.
  - pose proof (win_needs_cell P HP Hw) as Hroom.
    exists (Z.quot (WIDTH * HEIGHT + 1 - nbMoves P) 2), tt.
    split; [reflexivity |]. split; [zdiv |].
    intros _ _ Ht. rewrite (true_score_win P Hw).
    repeat split; try assumption; zdiv.
  - destruct (solve_search_total fuel book tt P depth true HP Hw Hb Hn)
      as (lo & hi & tt' & E & Hlo).
    exists lo, tt'. rewrite E. split; [reflexivity |].
    split; [exact Hlo |].
    intros Hd Hbs Ht.
    destruct (solve_search_weak fuel book tt P depth HP Hw Hd Hbs Ht Hn)
      as (lo' & hi' & tt2 & E' & Ht2 & H1 & H2 & H3).
    rewrite E in E'. inversion E'; subst. auto.
Qed.
End SolverClaims.
(** ** The bytes [negamax] stores *)



Section StoredBytes.
Context {PA : PositionAPI} {BT : BookTableAPI}.
Context (valid : Position -> Prop) {L : PositionLaws valid}.




End StoredBytes.

(** ** The claims on concrete positions *)

Lemma empty_reachable : In Bitboard.empty (Bitboard.reachable 4 2).
Proof.
  unfold Bitboard.reachable. change (Z.to_nat (4 * 2)) with 8%nat.
  cbn [Bitboard.levels app]. left. reflexivity.
Qed.

Lemma negamax_window_result_witness :
  exists v tt',
    @negamax Connect4x2 NoBookTable 9 (OpeningBook_empty 4 2) (columnOrder 4)
             ∅ Bitboard.empty (-1) 1 (-1) = Some (v, tt') /\
    v = 0.
Proof.
  destruct (@negamax_window_result Connect4x2 NoBookTable _ Connect4x2_laws
              9 (OpeningBook_empty 4 2) ∅ Bitboard.empty (-1) 1 (-1))
    as (v & tt' & E & _ & _ & H3 & _).
  - exact empty_reachable.
  - reflexivity.
  - lia.
  - lia.
  - apply (@book_miss_sound Connect4x2 NoBookTable _ Connect4x2_laws). cbn. lia.
  - apply (@table_sound_empty Connect4x2).
  - vm_compute. lia.
  - exists v, tt'. split; [exact E |].
    rewrite H3; [vm_compute; reflexivity | vm_compute; split; reflexivity].
Defined.

(** The side to move can win at once: three stones of a colour in each
    of the two first columns. *)
Lemma solve_immediate_win_witness :
  @solve Connect4 NoBookTable 0 (OpeningBook_empty 7 6) (columnOrder 7) ∅
         (Bitboard.play_cols 7 6 [0; 1; 0; 1; 0; 1]) (-1) false = Some (18, ∅).
Proof.
  destruct (@solve_immediate_win Connect4 NoBookTable 0 (OpeningBook_empty 7 6)
              (columnOrder 7) ∅ (Bitboard.play_cols 7 6 [0; 1; 0; 1; 0; 1])
              (-1) false) as (E & _).
  - reflexivity.
  - exact E.
Defined.

(** A full board of 4 columns and 2 rows without an alignment. *)
Lemma getBestMove_no_move_witness :
  @getBestMove Connect4x2 NoBookTable 10 (OpeningBook_empty 4 2) (columnOrder 4) ∅
               (Bitboard.play_cols 4 2 [0; 1; 2; 3; 3; 2; 1; 0]) (-1) false =
  Some (-1, ∅).
Proof.
  apply (@getBestMove_no_move Connect4x2 NoBookTable). reflexivity.
Defined.

(** C4, as stated, fails: with [weak] true, on the position reached by
    the columns 0, 1, 0, 1, 0, 1, in which the side to move completes a
    column of four, [solve] returns 18. *)
Lemma solve_weak_claim_fails :
  exists v tt',
    @solve Connect4 NoBookTable 50 (OpeningBook_empty 7 6) (columnOrder 7) ∅
           (Bitboard.play_cols 7 6 [0; 1; 0; 1; 0; 1]) (-1) true = Some (v, tt') /\
    ~ (v = -1 \/ v = 0 \/ v = 1).
Proof.
  exists 18, ∅. split; [reflexivity | lia].
Qed.

Lemma solve_weak_result_witness :
  exists v tt',
    @solve Connect4x2 NoBookTable 10 (OpeningBook_empty 4 2) (columnOrder 4) ∅
           Bitboard.empty (-1) true = Some (v, tt') /\
    v = 0.
Proof.
  destruct (@solve_weak_result Connect4x2 NoBookTable _ Connect4x2_laws
              10 (OpeningBook_empty 4 2) ∅ Bitboard.empty (-1))
    as (v & tt' & E & _ & H).
  - exact empty_reachable.
  - apply (@book_sound_defined Connect4x2 NoBookTable).
    apply (@book_miss_sound Connect4x2 NoBookTable _ Connect4x2_laws). cbn. lia.
  - vm_compute. lia.
  - exists v, tt'. split; [exact E |].
    destruct H as (_ & _ & H0 & _).
    + lia.
    + apply (@book_miss_sound Connect4x2 NoBookTable _ Connect4x2_laws). cbn. lia.
    + apply (@table_sound_empty Connect4x2).
    + apply H0. vm_compute. reflexivity.
Defined.

Lemma score_ge_move {PA : PositionAPI} (n : nat) (P : Position) (m : Z) :
  canWinNext P = false -> In m (legal_moves P) ->
  - score n (play P m) <= score (S n) P.
Proof.
  intros Hw Hm. cbn [score]. rewrite Hw.
  apply best_reply_upper. apply in_map_iff. exists m. auto.
Qed.

(** C3, as stated, fails.  With [weak] true, on the position reached by
    the columns 0, 2, 0, 3, 6, 4, in which the opponent threatens both
    ends of its row of three, the loop is left with [min = -1] and
    [max = -18], and the score is -18.  With [weak] false and a depth
    budget of 0, on the position reached by the columns 2, 2, 3, 3, the
    loop is left with [min = max = 0] although the side to move wins. *)
Lemma solve_search_claim_fails :
  (@solve_search Connect4 NoBookTable 50 (OpeningBook_empty 7 6) (columnOrder 7) ∅
                 (Bitboard.play_cols 7 6 [0; 2; 0; 3; 6; 4]) (-1) true =
     Some (-1, -18, ∅) /\
   @true_score Connect4 (Bitboard.play_cols 7 6 [0; 2; 0; 3; 6; 4]) = -18) /\
  (@solve_search Connect4 NoBookTable 50 (OpeningBook_empty 7 6) (columnOrder 7) ∅
                 (Bitboard.play_cols 7 6 [2; 2; 3; 3]) 0 false =
     Some (0, 0, ∅) /\
   0 < @true_score Connect4 (Bitboard.play_cols 7 6 [2; 2; 3; 3])).
Proof.
  split; split.
  - vm_compute. reflexivity.
  - vm_compute. reflexivity.
  - vm_compute. reflexivity.
  - pose proof (@score_ge_move Connect4 37 (Bitboard.play_cols 7 6 [2; 2; 3; 3])
                  (@move_in Connect4 (Bitboard.play_cols 7 6 [2; 2; 3; 3]) 4)) as H.
    assert (E : - @score Connect4 37
                   (@play Connect4 (Bitboard.play_cols 7 6 [2; 2; 3; 3])
                          (@move_in Connect4 (Bitboard.play_cols 7 6 [2; 2; 3; 3]) 4))
                = 18) by (vm_compute; reflexivity).
    rewrite E in H.
    change (@true_score Connect4 (Bitboard.play_cols 7 6 [2; 2; 3; 3]))
      with (@score Connect4 38 (Bitboard.play_cols 7 6 [2; 2; 3; 3])).
    assert (18 <= @score Connect4 38 (Bitboard.play_cols 7 6 [2; 2; 3; 3])); [| lia].
    apply H; [reflexivity |].
    apply (@legal_moves_In Connect4). exists 4. split; [| split; [reflexivity |]].
    + vm_compute. tauto.
    + vm_compute. discriminate.
Qed.

Lemma solve_search_terminates_witness :
  exists tt',
    @solve_search Connect4x2 NoBookTable 10 (OpeningBook_empty 4 2) (columnOrder 4) ∅
                  Bitboard.empty (-1) false = Some (0, 0, tt').
Proof.
  destruct (@solve_search_terminates Connect4x2 NoBookTable _ Connect4x2_laws
              10 (OpeningBook_empty 4 2) ∅ Bitboard.empty (-1) false)
    as (_ & _ & H).
  - exact empty_reachable.
  - reflexivity.
  - apply (@book_sound_defined Connect4x2 NoBookTable).
    apply (@book_miss_sound Connect4x2 NoBookTable _ Connect4x2_laws). cbn. lia.
  - vm_compute. lia.
  - destruct H as (tt' & E & _).
    + reflexivity.
    + lia.
    + apply (@book_miss_sound Connect4x2 NoBookTable _ Connect4x2_laws). cbn. lia.
    + apply (@table_sound_empty Connect4x2).
    + exists tt'. exact E.
Defined.

(** C7: two calls of [solve] with an unlimited depth budget and [weak]
    false on the same position and the same solver differ.  On the 4 by
    3 board after the columns 0, 0, 1, 0, a position of score -1, a new
    solver with an empty book first serves a call of depth budget 2,
    which leaves in the table the bounds it derived from the value 0 of
    the depth cut-off.  Of the two calls with an unlimited budget that
    follow, the first returns 0, which is not the score, and the
    second, on the table the first has left, returns -1. *)
Theorem solve_repeat_differs :
  exists v0 tt0 tt1 tt2,
    @solve Connect4x3 NoBookTable 14 (OpeningBook_empty 4 3) (columnOrder 4) ∅
           (Bitboard.play_cols 4 3 [0; 0; 1; 0]) 2 false = Some (v0, tt0) /\
    @solve Connect4x3 NoBookTable 14 (OpeningBook_empty 4 3) (columnOrder 4) tt0
           (Bitboard.play_cols 4 3 [0; 0; 1; 0]) (-1) false = Some (0, tt1) /\
    @solve Connect4x3 NoBookTable 14 (OpeningBook_empty 4 3) (columnOrder 4) tt1
           (Bitboard.play_cols 4 3 [0; 0; 1; 0]) (-1) false = Some (-1, tt2) /\
    @true_score Connect4x3 (Bitboard.play_cols 4 3 [0; 0; 1; 0]) = -1.
Proof.
  eexists. eexists. eexists. eexists. split; [| split; [| split]].
  - vm_compute. reflexivity.
  - vm_compute. reflexivity.
  - vm_compute. reflexivity.
  - vm_compute. reflexivity.
Qed.

Lemma solve_repeatable_witness :
  exists tt1 tt2,
    @solve Connect4x2 NoBookTable 10 (OpeningBook_empty 4 2) (columnOrder 4) ∅
           Bitboard.empty (-1) false = Some (0, tt1) /\
    @solve Connect4x2 NoBookTable 10 (OpeningBook_empty 4 2) (columnOrder 4) tt1
           Bitboard.empty (-1) false = Some (0, tt2).
Proof.
  destruct (@solve_repeatable Connect4x2 NoBookTable _ Connect4x2_laws
              10 (OpeningBook_empty 4 2) ∅ Bitboard.empty Bitboard.empty (-1))
    as (v & tt1 & tt2 & E1 & E2 & Ev & _).
  - exact empty_reachable.
  - reflexivity.
  - lia.
  - apply (@book_miss_sound Connect4x2 NoBookTable _ Connect4x2_laws). cbn. lia.
  - apply (@table_sound_empty Connect4x2).
  - vm_compute. lia.
  - assert (v = 0) by (rewrite Ev; vm_compute; reflexivity). subst v.
    exists tt1, tt2. split; assumption.
Defined.



(** * Further properties *)

(** ** Reading and writing the book file *)

Lemma read_char_cons (c : Byte.byte) (rest : list Byte.byte) :
  read_char {| is_data := c :: rest; is_fail := false |} =
  (Some (char_to_int c), {| is_data := rest; is_fail := false |}).
Proof. reflexivity. Qed.

Lemma read_char_nil :
  read_char {| is_data := []; is_fail := false |} =
  (None, {| is_data := []; is_fail := true |}).
Proof. reflexivity. Qed.

Lemma read_char_failed (data : list Byte.byte) :
  read_char {| is_data := data; is_fail := true |} =
  (None, {| is_data := data; is_fail := true |}).
Proof. reflexivity. Qed.




Section BookFile.
Context {BT : BookTableAPI}.



(** ... and for these only; otherwise there is one report, on the key
    size first. *)
Lemma initTranspositionTable_outcome (key_bytes log_size : Z) :
  (supported_key_bytes key_bytes = true /\
   supported_log_size log_size = true /\
   initTranspositionTable key_bytes log_size = (true, [])) \/
  (supported_key_bytes key_bytes && supported_log_size log_size = false /\
   initTranspositionTable key_bytes log_size =
     (false, [if supported_key_bytes key_bytes
              then UnimplementedSize log_size
              else InvalidKeyBytes key_bytes])).
Proof.
  unfold initTranspositionTable.
  destruct (supported_key_bytes key_bytes), (supported_log_size log_size);
    cbn; auto.
Qed.


(** A book of depth -1 misses on every position, whatever its pointer. *)
Lemma depth_minus_one_misses (b : OpeningBook) :
  depth b = -1 ->
  forall (PA : PositionAPI) (P : Position),
    0 <= nbMoves P -> OpeningBook_get b P = Some 0.
Proof.
  intros Hd PA P HP. unfold OpeningBook_get. rewrite Hd.
  replace (nbMoves P >? -1) with true by (symmetry; apply Z.gtb_lt; lia).
  reflexivity.
Qed.

Lemma load_data_outcome (b0 : OpeningBook) (s : ifstream) (d kb vb ls : Z) :
  depth b0 = -1 ->
  let r := load_data b0 s d kb vb ls in
  width (fst r) = width b0 /\ height (fst r) = height b0 /\
  ((snd r = [] /\ depth (fst r) = d /\ exists tbl, T (fst r) = TLive tbl) \/
   (exists m, (snd r = [m] \/ snd r = [m; UnableToInitialize]) /\
              depth (fst r) = -1)).
Proof.
  intros Hd. unfold load_data.
  destruct (initTranspositionTable_outcome kb ls) as [(_ & _ & ->) | (_ & ->)].
  - destruct (ifs_read _ s) as [ks s1]. destruct (ifs_read _ s1) as [vs s2].
    destruct (is_fail s2); cbn; repeat split; eauto.
  - cbn. repeat split; eauto.
Qed.

(** X2: on a book whose table pointer does not dangle, [load] of a file
    that cannot be opened, or that holds at least its six header bytes,
    ends in one of two ways and never changes width or height: without
    any report and with a live table; or with depth -1 and one report,
    or two when the header names a table type that does not exist (the
    line of [initTranspositionTable], then "unable to initialize"),
    after which [get] answers 0 on every position of non-negative move
    count. *)
Theorem load_outcome (b : OpeningBook) (file : option (list Byte.byte)) :
  T b <> TDangling ->
  (forall data, file = Some data -> (6 <= length data)%nat) ->
  exists b' msgs,
    load b file = Some (b', msgs) /\
    width b' = width b /\ height b' = height b /\
    ((msgs = [] /\ exists tbl, T b' = TLive tbl) \/
     (exists m, (msgs = [m] \/ msgs = [m; UnableToInitialize]) /\
                depth b' = -1 /\
                forall (PA : PositionAPI) (P : Position),
                  0 <= nbMoves P -> OpeningBook_get b' P = Some 0)).
Proof.
  intros Hptr Hlen. unfold load.
  destruct (delete_ptr (T b)) as [p |] eqn:Ed.
  2: { destruct (T b); cbn in Ed; congruence. }
  cbv zeta.
  assert (Hfail : forall m : LoadMsg,
             exists b' msgs,
               Some ({| T := p; width := width b; height := height b; depth := -1 |}, [m])
               = Some (b', msgs) /\
               width b' = width b /\ height b' = height b /\
               ((msgs = [] /\ exists tbl, T b' = TLive tbl) \/
                (exists m, (msgs = [m] \/ msgs = [m; UnableToInitialize]) /\
                           depth b' = -1 /\
                           forall (PA : PositionAPI) (P : Position),
                             0 <= nbMoves P -> OpeningBook_get b' P = Some 0))).
  { intros m. eexists _, _. split; [reflexivity |]. cbn. repeat split.
    right. exists m. repeat split; [left; reflexivity |].
    apply depth_minus_one_misses. reflexivity. }
  destruct file as [data |]; [| apply Hfail].
  specialize (Hlen data eq_refl).
  destruct data as [| c1 [| c2 [| c3 [| c4 [| c5 [| c6 body]]]]]];
    cbn [length] in Hlen; try lia.
  rewrite read_char_cons. cbv beta iota.
  destruct (negb (char_to_int c1 =? width b)); [apply Hfail |].
  rewrite read_char_cons. cbv beta iota.
  destruct (negb (char_to_int c2 =? height b)); [apply Hfail |].
  rewrite read_char_cons. cbv beta iota.
  destruct (char_to_int c3 >? width b * height b); [apply Hfail |].
  rewrite read_char_cons. cbv beta iota.
  destruct (char_to_int c4 >? 8); [apply Hfail |].
  rewrite read_char_cons. cbv beta iota.
  destruct (negb (char_to_int c5 =? 1)); [apply Hfail |].
  rewrite read_char_cons. cbv beta iota.
  destruct (char_to_int c6 >? 40); [apply Hfail |].
  cbn [default from_option id].
  pose proof (load_data_outcome
                {| T := p; width := width b; height := height b; depth := -1 |}
                {| is_data := body; is_fail := false |}
                (char_to_int c3) (char_to_int c4) (char_to_int c5)
                (char_to_int c6) eq_refl) as H.
  cbv zeta in H. destruct (load_data _ _ _ _ _ _) as [b' msgs].
  cbn [fst snd width height] in H. destruct H as (Hw & Hh & H).
  exists b', msgs. split; [reflexivity |]. split; [assumption |].
  split; [assumption |].
  destruct H as [(-> & _ & Ht) | (m & Hm & Hd)]; [left; auto |].
  right. exists m. repeat split; [assumption | assumption |].
  apply depth_minus_one_misses. assumption.
Qed.

Lemma ifs_read_ok (n : nat) (s s' : ifstream) (bs : list Byte.byte) :
  ifs_read n s = (bs, s') -> is_fail s' = false ->
  is_fail s = false /\ (n <= length (is_data s))%nat /\
  bs = firstn n (is_data s) /\ is_data s' = skipn n (is_data s).
Proof.
  unfold ifs_read. destruct (is_fail s) eqn:Ef.
  - intros E Hf. inversion E; subst. congruence.
  - destruct (length (is_data s) <? n)%nat eqn:El; intros E Hf;
      inversion E; subst; cbn in *; [congruence |].
    apply Nat.ltb_ge in El. auto.
Qed.

(** X3: a load that ends without a report has read a file of at least
    six header bytes that pass every check, with a supported key size
    and size exponent, followed by the two arrays in full; the book it
    leaves holds the recorded depth and exactly these arrays, and bytes
    after the arrays are ignored. *)
Theorem load_success_inv (b b' : OpeningBook) (file : option (list Byte.byte)) :
  load b file = Some (b', []) ->
  exists c1 c2 c3 c4 c5 c6 body,
    file = Some (c1 :: c2 :: c3 :: c4 :: c5 :: c6 :: body) /\
    char_to_int c1 = width b /\ char_to_int c2 = height b /\
    char_to_int c3 <= width b * height b /\
    supported_key_bytes (char_to_int c4) = true /\
    char_to_int c5 = 1 /\
    supported_log_size (char_to_int c6) = true /\
    let size := table_size (char_to_int c6) in
    let klen := (size * Z.to_nat (char_to_int c4))%nat in
    (klen + size <= length body)%nat /\
    b' = {| T := TLive {| bt_key_bytes := char_to_int c4;
                          bt_log_size := char_to_int c6;
                          bt_keys := firstn klen body;
                          bt_values := firstn size (skipn klen body) |};
            width := width b; height := height b;
            depth := char_to_int c3 |}.
Proof.
  unfold load. destruct (delete_ptr (T b)) as [p |]; [| discriminate].
  cbv zeta. intros E.
  destruct file as [data |]; [| inversion E].
  destruct data as [| c1 data]; [rewrite read_char_nil in E; inversion E |].
  rewrite read_char_cons in E.
  destruct (char_to_int c1 =? width b) eqn:E1; cbn [negb] in E; [| inversion E].
  destruct data as [| c2 data]; [rewrite read_char_nil in E; inversion E |].
  rewrite read_char_cons in E.
  destruct (char_to_int c2 =? height b) eqn:E2; cbn [negb] in E; [| inversion E].
  destruct data as [| c3 data]; [rewrite read_char_nil in E; inversion E |].
  rewrite read_char_cons in E.
  destruct (char_to_int c3 >? width b * height b) eqn:E3; [inversion E |].
  destruct data as [| c4 data]; [rewrite read_char_nil in E; inversion E |].
  rewrite read_char_cons in E.
  destruct (char_to_int c4 >? 8) eqn:E4; [inversion E |].
  destruct data as [| c5 data]; [rewrite read_char_nil in E; inversion E |].
  rewrite read_char_cons in E.
  destruct (char_to_int c5 =? 1) eqn:E5; cbn [negb] in E; [| inversion E].
  destruct data as [| c6 body]; [rewrite read_char_nil in E; inversion E |].
  rewrite read_char_cons in E.
  destruct (char_to_int c6 >? 40) eqn:E6; [inversion E |].
  cbn [default from_option id] in E. unfold load_data in E.
  destruct (initTranspositionTable_outcome (char_to_int c4) (char_to_int c6))
    as [(Ek & El & Ei) | (_ & Ei)]; rewrite Ei in E; [| inversion E].
  destruct (ifs_read _ {| is_data := body; is_fail := false |}) as [ks s1] eqn:R1.
  destruct (ifs_read _ s1) as [vs s2] eqn:R2.
  destruct (is_fail s2) eqn:Ef; [inversion E |].
  apply Z.eqb_eq in E1, E2, E5. rewrite Z.gtb_ltb in E3. apply Z.ltb_ge in E3.
  destruct (ifs_read_ok _ _ _ _ R2 Ef) as (Ef1 & Hl2 & Hvs & _).
  destruct (ifs_read_ok _ _ _ _ R1 Ef1) as (_ & Hl1 & Hks & Hd1).
  cbn [is_data] in *. rewrite Hd1 in Hl2, Hvs. rewrite E5 in Hl2, Hvs.
  change (Z.to_nat 1) with 1%nat in Hl2, Hvs. rewrite Nat.mul_1_r in Hl2, Hvs.
  rewrite length_skipn in Hl2.
  exists c1, c2, c3, c4, c5, c6, body. repeat split; auto; [lia |].
  inversion E; subst. reflexivity.
Qed.
(** X4: on a book whose table pointer does not dangle, a file whose six
    header bytes pass the checks but whose key size is not 1, 2 or 4, or
    whose size exponent is not 14 or 21..27, ends with two reports: the
    line of [initTranspositionTable] ("invalid key size", which is
    looked at first, or "unimplemented size") and then "unable to
    initialize".  The book is left with a null table pointer and depth
    -1, and nothing of the two arrays is read. *)
Theorem load_unsupported_shape
        (b : OpeningBook) (c1 c2 c3 c4 c5 c6 : Byte.byte) (body : list Byte.byte) :
  T b <> TDangling ->
  char_to_int c1 = width b -> char_to_int c2 = height b ->
  char_to_int c3 <= width b * height b ->
  char_to_int c4 <= 8 -> char_to_int c5 = 1 -> char_to_int c6 <= 40 ->
  supported_key_bytes (char_to_int c4) &&
    supported_log_size (char_to_int c6) = false ->
  load b (Some (c1 :: c2 :: c3 :: c4 :: c5 :: c6 :: body)) =
    Some ({| T := TNull; width := width b; height := height b; depth := -1 |},
          [if supported_key_bytes (char_to_int c4)
           then UnimplementedSize (char_to_int c6)
           else InvalidKeyBytes (char_to_int c4);
           UnableToInitialize]).
Proof.
  intros Hptr H1 H2 H3 H4 H5 H6 Hinit. unfold load.
  destruct (delete_ptr (T b)) as [p |] eqn:Ed.
  2: { destruct (T b); cbn in Ed; congruence. }
  cbv zeta. rewrite !read_char_cons.
  rewrite H1, H2, H5, !Z.eqb_refl. cbn [negb].
  replace (char_to_int c3 >? width b * height b) with false
    by (symmetry; rewrite Z.gtb_ltb; apply Z.ltb_ge; lia).
  replace (char_to_int c4 >? 8) with false
    by (symmetry; rewrite Z.gtb_ltb; apply Z.ltb_ge; lia).
  replace (char_to_int c6 >? 40) with false
    by (symmetry; rewrite Z.gtb_ltb; apply Z.ltb_ge; lia).
  cbn [default from_option id]. unfold load_data.
  destruct (initTranspositionTable_outcome (char_to_int c4) (char_to_int c6))
    as [(Ek & El & _) | (_ & ->)]; [| reflexivity].
  rewrite Ek, El in Hinit. discriminate.
Qed.

(** X5: when [load] fails before it allocates a table (the file cannot
    be opened or a header byte is rejected) on a book that owned a
    table, the pointer to the deleted table stays in the book: [get]
    still answers (depth -1 is tested first), but a further [load], a
    [save] and the destructor are undefined. *)
Theorem load_failure_leaves_dangling
        (b b2 : OpeningBook) (tbl : BookTable) (file : option (list Byte.byte))
        (m : LoadMsg) :
  T b = TLive tbl ->
  load b file = Some (b2, [m]) ->
  m <> UnableToLoadData -> m <> UnableToInitialize ->
  T b2 = TDangling /\
  (forall file2, load b2 file2 = None) /\
  save b2 = None /\
  OpeningBook_destroy b2 = None /\
  forall (PA : PositionAPI) (P : Position),
    0 <= nbMoves P -> OpeningBook_get b2 P = Some 0.
Proof.
  intros HT E Hm1 Hm2.
  assert (Hb : b2 = {| T := TDangling; width := width b; height := height b;
                       depth := -1 |}).
  { unfold load in E. rewrite HT in E. cbn [delete_ptr] in E. cbv zeta in E.
    destruct file as [data |]; [| inversion E; reflexivity].
    repeat match type of E with
           | context [read_char ?s] =>
             destruct (read_char s) as [[? |] ?]; [| inversion E; reflexivity]
           | context [if ?c then _ else _] =>
             destruct c; [inversion E; reflexivity |]
           end.
    cbn [default from_option id] in E. unfold load_data in E.
    match type of E with
    | context [initTranspositionTable ?kb ?ls] =>
      destruct (initTranspositionTable_outcome kb ls) as [(_ & _ & Ei) | (_ & Ei)];
        rewrite Ei in E
    end.
    - destruct (ifs_read _ _) as [ks s1]. destruct (ifs_read _ s1) as [vs s2].
      destruct (is_fail s2); inversion E; subst; congruence.
    - inversion E. }
  subst b2. repeat split.
  apply depth_minus_one_misses. reflexivity.
Qed.
End BookFile.


Lemma load_outcome_witness :
  exists b2 msgs,
    @load NoBookTable (OpeningBook_empty 7 6)
          (Some [Byte.x07; Byte.x05; Byte.x04; Byte.x01; Byte.x01; Byte.x0e]) =
      Some (b2, msgs) /\ width b2 = 7.
Proof.
  destruct (@load_outcome NoBookTable (OpeningBook_empty 7 6)
              (Some [Byte.x07; Byte.x05; Byte.x04; Byte.x01; Byte.x01; Byte.x0e]))
    as (b2 & msgs & E & Hw & _).
  - cbn. discriminate.
  - intros data E. inversion E. cbn. lia.
  - exists b2, msgs. split; [exact E | exact Hw].
Defined.

Lemma load_unsupported_shape_witness :
  @load NoBookTable (OpeningBook_empty 7 6)
        (Some [Byte.x07; Byte.x06; Byte.x04; Byte.x03; Byte.x01; Byte.x0e]) =
    Some ({| T := TNull; width := 7; height := 6; depth := -1 |},
          [InvalidKeyBytes 3; UnableToInitialize]).
Proof.
  apply (@load_unsupported_shape NoBookTable (OpeningBook_empty 7 6)).
  - cbn. discriminate.
  - reflexivity.
  - reflexivity.
  - cbn. lia.
  - cbn. lia.
  - reflexivity.
  - cbn. lia.
  - reflexivity.
Defined.

Lemma load_failure_leaves_dangling_witness :
  @load NoBookTable
        {| T := TDangling; width := 7; height := 6; depth := -1 |}
        (Some [Byte.x07]) = None.
Proof.
  destruct (@load_failure_leaves_dangling NoBookTable
              {| T := TLive {| bt_key_bytes := 1; bt_log_size := 14;
                               bt_keys := []; bt_values := [] |};
                 width := 7; height := 6; depth := 4 |}
              {| T := TDangling; width := 7; height := 6; depth := -1 |}
              {| bt_key_bytes := 1; bt_log_size := 14;
                 bt_keys := []; bt_values := [] |}
              None UnableToOpen) as (_ & H & _).
  - reflexivity.
  - reflexivity.
  - discriminate.
  - discriminate.
  - apply H.
Defined.

Lemma load_success_inv_witness :
  exists c1 rest,
    Some ([Byte.x07; Byte.x06; Byte.x04; Byte.x01; Byte.x01; Byte.x0e]
            ++ repeat Byte.x2a (Z.to_nat 32822) ++ [Byte.xff]) =
      Some (c1 :: rest) /\
    char_to_int c1 = 7.
Proof.
  destruct (@load_success_inv SlotTable.API (OpeningBook_empty 7 6)
              {| T := TLive {| bt_key_bytes := 1; bt_log_size := 14;
                               bt_keys := repeat Byte.x2a (Z.to_nat 16411);
                               bt_values := repeat Byte.x2a (Z.to_nat 16411) |};
                 width := 7; height := 6; depth := 4 |}
              (Some ([Byte.x07; Byte.x06; Byte.x04; Byte.x01; Byte.x01; Byte.x0e]
                       ++ repeat Byte.x2a (Z.to_nat 32822) ++ [Byte.xff])))
    as (c1 & c2 & c3 & c4 & c5 & c6 & body & E & H1 & _).
  - vm_compute. reflexivity.
  - exists c1, (c2 :: c3 :: c4 :: c5 :: c6 :: body). split; [exact E | exact H1].
Defined.

(** ** Depth budgets, early returns and bounds of [negamax] *)

Section SearchAnyPosition.
Context {PA : PositionAPI} {BT : BookTableAPI}.

Lemma book_get_defined (book : OpeningBook) (P : Position) :
  T book <> TDangling -> exists val, OpeningBook_get book P = Some val.
Proof.
  intros Hptr. unfold OpeningBook_get.
  destruct (nbMoves P >? depth book); [eauto |].
  destruct (T book); [eauto | eauto | congruence].
Qed.

(** X7: called within its preconditions (a window [alpha < beta], a
    side to move that cannot win at once) on a book whose table pointer
    does not dangle, [negamax] with a depth budget of 0 makes no
    recursive call and stores nothing: it returns with the table it was
    given. *)
Theorem negamax_depth_zero_reads_only
        (fuel : nat) (book : OpeningBook) (order : list Z) (tt : gmap Z Z)
        (P : Position) (alpha beta : Z) :
  alpha < beta -> canWinNext P = false ->
  T book <> TDangling ->
  exists v, negamax (S fuel) book order tt P alpha beta 0 = Some (v, tt).
Proof.
  intros Hab Hw Hptr. cbn [negamax]. cbv zeta.
  rewrite (proj2 (Z.ltb_lt alpha beta) Hab), Hw. cbn [negb].
  destruct (possibleNonLosingMoves P =? 0); [eauto |].
  destruct (nbMoves P >=? WIDTH * HEIGHT - 2); [eauto |].
  destruct (raise_alpha _ alpha beta) as [v | a1 b1]; [eauto |].
  destruct (lower_beta _ a1 b1) as [v | a2 b2]; [eauto |].
  destruct (narrow_by_table _ a2 b2) as [v | a3 b3]; [eauto |].
  destruct (book_get_defined book P Hptr) as (val & ->).
  destruct (negb (val =? 0)); [eauto |].
  cbn. eauto.
Qed.

(** X8: whatever the probes answer, the loop of [solve] is left after at
    most two probes when [weak] is set, and after at most
    [W*H - movesPlayed] probes otherwise. *)
Theorem solve_probe_count
        (probe : gmap Z Z -> Z -> option (Z * gmap Z Z)) (tt : gmap Z Z)
        (P : Position) (weak : bool) :
  (forall tt med, exists r tt', probe tt med = Some (r, tt')) ->
  0 <= nbMoves P <= WIDTH * HEIGHT ->
  exists lo hi tt',
    solve_loop (if weak then 2 else cells_left P) probe tt
               (fst (solve_range P weak)) (snd (solve_range P weak)) =
      Some (lo, hi, tt').
Proof.
  intros Hp R.
  destruct (solve_loop_total (if weak then 2%nat else cells_left P) probe Hp tt
              (fst (solve_range P weak)) (snd (solve_range P weak)))
    as (lo & hi & tt' & E & _).
  - destruct weak; unfold solve_range, cells_left; cbn [fst snd]; zdiv.
  - eauto.
Qed.
End SearchAnyPosition.

Section SearchWithContract.
Context {PA : PositionAPI} {BT : BookTableAPI}.
Context (valid : Position -> Prop) {L : PositionLaws valid}.

(** X6: a non-negative depth budget bounds the recursion of [negamax].
    Under the contract of the position class, called within its
    preconditions (nobody has won, the side to move cannot win at once,
    [alpha < beta]) on a book whose table pointer does not dangle, a
    call with budget [d] nests at most [d + 1] deep and returns a value,
    whatever the number of cells left, the table and the content of the
    book; every nested call is made within the preconditions too. *)
Theorem negamax_depth_bounded
        (fuel : nat) (book : OpeningBook) (tt : gmap Z Z)
        (P : Position) (alpha beta depth : Z) :
  valid P -> canWinNext P = false -> alpha < beta ->
  T book <> TDangling ->
  0 <= depth -> (Z.to_nat depth < fuel)%nat ->
  exists v tt',
    negamax fuel book (columnOrder WIDTH) tt P alpha beta depth = Some (v, tt').
Proof.
  intros HP Hw Hab Hptr. revert tt P alpha beta depth HP Hw Hab.
  induction fuel as [| fuel IH]; intros tt P alpha beta depth HP Hw Hab Hd Hf;
    [lia |].
  cbn [negamax]. cbv zeta.
  rewrite (proj2 (Z.ltb_lt alpha beta) Hab), Hw. cbn [negb].
  destruct (possibleNonLosingMoves P =? 0); [eauto |].
  destruct (nbMoves P >=? WIDTH * HEIGHT - 2); [eauto |].
  destruct (raise_alpha _ alpha beta) as [v | a1 b1] eqn:E1; [eauto |].
  apply raise_alpha_window in E1; [| assumption]. destruct E1 as (_ & _ & Hab1).
  destruct (lower_beta _ a1 b1) as [v | a2 b2] eqn:E2; [eauto |].
  apply lower_beta_window in E2; [| assumption]. destruct E2 as (_ & _ & Hab2).
  destruct (narrow_by_table _ a2 b2) as [v | a3 b3] eqn:E3; [eauto |].
  destruct (narrow_by_table_window _ _ _ _ _ Hab2 E3) as (_ & _ & Hab3).
  destruct (book_get_defined book P Hptr) as (val & ->).
  destruct (negb (val =? 0)); [eauto |].
  destruct (depth =? 0) eqn:E0; [eauto |].
  apply Z.eqb_neq in E0.
  replace (depth >? 0) with true by (symmetry; apply Z.gtb_lt; lia).
  set (moves := MoveSorter_visit _).
  assert (Hrec : search_ok valid False
                   (fun tt P2 a b =>
                      negamax fuel book (columnOrder WIDTH) tt P2 a b (depth - 1))
                   (cells_left P)).
  { intros tt0 P2 a b HP2 Hw2 Hab' _.
    destruct (IH tt0 P2 a b (depth - 1) HP2 Hw2 Hab' ltac:(lia) ltac:(lia))
      as (v & tt' & E).
    exists v, tt'. split; [exact E | intros []]. }
  destruct (negamax_moves_ok valid False _ (cells_left P) P b3 Hrec HP Hw
                             (Nat.le_refl _) moves tt a3)
    as (v & tt2 & E & _); [| assumption | eauto].
  intros m Hin. apply (visited_non_losing valid P m HP Hw). exact Hin.
Qed.

(** X9: the bounds of the header comment of [negamax].  With an
    unlimited depth budget and sound caches the value returned for a
    window [alpha < beta] lies between the score and the window: from
    the score up to [alpha] when the score is at most [alpha], from
    [beta] up to the score when the score is at least [beta]. *)
Theorem negamax_fail_soft_bounds
        (fuel : nat) (book : OpeningBook) (tt : gmap Z Z) (P : Position)
        (alpha beta depth : Z) :
  valid P -> canWinNext P = false -> alpha < beta -> depth < 0 ->
  book_sound valid book -> table_sound valid tt ->
  (cells_left P < fuel)%nat ->
  exists v tt',
    negamax fuel book (columnOrder WIDTH) tt P alpha beta depth = Some (v, tt') /\
    (true_score P <= alpha -> true_score P <= v <= alpha) /\
    (beta <= true_score P -> beta <= v <= true_score P).
Proof.
  intros HP Hw Hab Hd Hb Ht Hn.
  destruct (negamax_ok valid book (book_sound_defined valid book Hb) fuel depth tt P
                       alpha beta HP Hw Hab Hn) as (v & tt' & E & Hs).
  destruct (Hs (conj Hd Hb) Ht) as (_ & H1 & H2 & _).
  exists v, tt'. auto.
Qed.

(** X10: called within its preconditions (nobody has won, the side to
    move cannot win at once, [alpha < beta]) on a position where the
    side to move has no non-losing move, or where at most two cells are
    left, [negamax] returns the exact score whatever the window, the
    depth budget, the table and the book, and leaves the table as it
    was: the forced-loss score
    [-(W*H - movesPlayed) / 2] in the first case, the draw score 0 in
    the second. *)
Theorem negamax_decided_early
        (fuel : nat) (book : OpeningBook) (order : list Z) (tt : gmap Z Z)
        (P : Position) (alpha beta depth : Z) :
  valid P -> canWinNext P = false -> alpha < beta ->
  possibleNonLosingMoves P = 0 \/ WIDTH * HEIGHT - 2 <= nbMoves P ->
  negamax (S fuel) book order tt P alpha beta depth = Some (true_score P, tt) /\
  (possibleNonLosingMoves P = 0 ->
   true_score P = Z.quot (- (WIDTH * HEIGHT - nbMoves P)) 2) /\
  (possibleNonLosingMoves P <> 0 -> true_score P = 0).
Proof.
  intros HP Hw Hab Hcase. cbn [negamax]. cbv zeta.
  rewrite (proj2 (Z.ltb_lt alpha beta) Hab), Hw. cbn [negb].
  destruct (possibleNonLosingMoves P =? 0) eqn:E0.
  - apply Z.eqb_eq in E0.
    rewrite (no_non_losing_score valid P HP Hw E0).
    repeat split; congruence.
  - apply Z.eqb_neq in E0. destruct Hcase as [? | Hnb]; [congruence |].
    replace (nbMoves P >=? WIDTH * HEIGHT - 2) with true
      by (symmetry; apply Z.geb_le; lia).
    rewrite (draw_score valid P HP Hw E0 Hnb).
    repeat split; congruence.
Qed.

(** X11: an entry read from the transposition table never widens the
    window.  Either the search goes on with a window inside the one it
    had, still with [alpha < beta]; or [negamax] returns the bound the
    entry decodes to, a lower bound that reaches [beta] or an upper
    bound that does not exceed [alpha]. *)
Theorem table_entry_narrows (val alpha beta : Z) :
  alpha < beta ->
  match narrow_by_table val alpha beta with
  | Window alpha' beta' => alpha <= alpha' /\ alpha' < beta' /\ beta' <= beta
  | Cut v =>
    val <> 0 /\
    ((is_lower_bound MIN_SCORE MAX_SCORE val = true /\
      v = decode_lower MIN_SCORE MAX_SCORE val /\ beta <= v) \/
     (is_lower_bound MIN_SCORE MAX_SCORE val = false /\
      v = decode_upper MIN_SCORE val /\ v <= alpha))
  end.
Proof.
  intros Hab.
  destruct (narrow_by_table val alpha beta) as [v | a' b'] eqn:E.
  - unfold narrow_by_table in E.
    destruct (val =? 0) eqn:E0; [discriminate |].
    apply Z.eqb_neq in E0. split; [assumption |].
    destruct (is_lower_bound MIN_SCORE MAX_SCORE val).
    + apply raise_alpha_cut in E. destruct E as (-> & ? & ?).
      left. repeat split; auto.
    + apply lower_beta_cut in E. destruct E as (-> & ? & ?).
      right. repeat split; auto.
  - apply narrow_by_table_window in E; [| assumption]. lia.
Qed.
End SearchWithContract.

(** ** Choosing the best move *)

Lemma find_unique {A : Type} (f : A -> bool) (l : list A) (x : A) :
  In x l -> f x = true ->
  (forall y, In y l -> f y = true -> y = x) ->
  find f l = Some x.
Proof.
  induction l as [| a l IH]; intros Hin Hx Huniq; [destruct Hin |].
  cbn [find]. destruct (f a) eqn:Ea.
  - f_equal. apply Huniq; [left; reflexivity | assumption].
  - destruct Hin as [-> | Hin]; [congruence |].
    apply IH; auto. intros y Hy. apply Huniq. right. assumption.
Qed.

Lemma MoveChooser_best_max (recorded : list (Z * Z)) :
  recorded <> [] ->
  exists m s, MoveChooser_best recorded = Some (m, s) /\
              In (m, s) recorded /\
              forall m' s', In (m', s') recorded -> s' <= s.
Proof.
  induction recorded as [| [m s] rest IH]; [congruence |]. intros _.
  cbn [MoveChooser_best]. destruct rest as [| e rest'].
  - cbn. exists m, s. repeat split; [left; reflexivity |].
    intros m' s' [E | []]. inversion E. lia.
  - destruct IH as (m1 & s1 & -> & Hin & Hmax); [discriminate |].
    destruct (s1 >? s) eqn:E.
    + apply Z.gtb_lt in E. exists m1, s1. repeat split; [right; assumption |].
      intros m' s' [E' | H']; [inversion E'; lia | eauto].
    + rewrite Z.gtb_ltb in E. apply Z.ltb_ge in E.
      exists m, s. repeat split; [left; reflexivity |].
      intros m' s' [E' | H']; [inversion E'; lia |].
      specialize (Hmax m' s' H'). lia.
Qed.

Section BestMove.
Context {PA : PositionAPI} {BT : BookTableAPI}.

Lemma check_masks_sound : check_masks = true -> disjoint_masks.
Proof.
  unfold check_masks, disjoint_masks. rewrite forallb_forall.
  intros H c c' Hc Hc' Hne. specialize (H c Hc). rewrite forallb_forall in H.
  specialize (H c' Hc'). apply orb_true_iff in H.
  destruct H as [H | H]; [apply Z.eqb_eq in H; congruence | apply Z.eqb_eq in H; exact H].
Qed.

Lemma getMoveColumn_inverts (P : Position) (col : Z) :
  disjoint_masks -> In col columns -> move_in P col <> 0 ->
  getMoveColumn (move_in P col) = Some col.
Proof.
  intros Hdis Hc Hnz. unfold getMoveColumn. fold columns.
  apply find_unique.
  - apply in_rev. rewrite rev_involutive. exact Hc.
  - apply negb_true_iff, Z.eqb_neq. unfold move_in in *.
    rewrite <- Z.land_assoc, Z.land_diag. exact Hnz.
  - intros c' Hc' Hf. apply in_rev in Hc'.
    apply negb_true_iff, Z.eqb_neq in Hf.
    destruct (Z.eq_dec c' col) as [E | N]; [exact E |].
    exfalso. apply Hf. unfold move_in.
    rewrite <- Z.land_assoc, (Hdis col c' Hc Hc') by congruence.
    apply Z.land_0_r.
Qed.

(** X12: [getMoveColumn] finds the column a move was generated for:
    when the masks of the columns are disjoint, the move of a position
    in a playable column is mapped back to that column, which lies on
    the board. *)
Theorem getMoveColumn_move_in (P : Position) (col : Z) :
  disjoint_masks -> In col columns -> move_in P col <> 0 ->
  getMoveColumn (move_in P col) = Some col /\ 0 <= col < WIDTH.
Proof.
  intros Hdis Hc Hnz. split.
  - apply getMoveColumn_inverts; assumption.
  - unfold columns in Hc. apply in_map_iff in Hc.
    destruct Hc as (i & <- & Hi). apply in_seq in Hi. lia.
Qed.
End BestMove.

Section BestMoveContract.
Context {PA : PositionAPI} {BT : BookTableAPI}.
Context (valid : Position -> Prop) {L : PositionLaws valid}.
Variable book : OpeningBook.
Hypothesis Hbook : book_sound valid book.
Hypothesis Hmasks : disjoint_masks.

Lemma solve_weak_class (fuel : nat) (tt : gmap Z Z) (P : Position) (depth : Z) :
  valid P -> depth < 0 -> table_sound valid tt ->
  (cells_left P + 2 <= fuel)%nat ->
  exists v tt',
    solve fuel book (columnOrder WIDTH) tt P depth true = Some (v, tt') /\
    table_sound valid tt' /\
    (true_score P < 0 -> v = -1) /\ (true_score P = 0 -> v = 0) /\
    (0 < true_score P -> 1 <= v <= true_score P).
Proof.
  intros HP Hd Ht Hn. unfold solve. pose proof (nbMoves_range P HP) as R.
  destruct (canWinNext P) eqn:Hw.
  - pose proof (win_needs_cell P HP Hw) as Hroom.
    exists (Z.quot (WIDTH * HEIGHT + 1 - nbMoves P) 2), tt.
    rewrite (true_score_win P Hw). repeat split; try assumption; zdiv.
  - destruct (solve_search_weak valid fuel book tt P depth HP Hw Hd Hbook Ht Hn)
      as (lo & hi & tt' & -> & Ht' & H1 & H2 & H3).
    exists lo, tt'. auto.
Qed.

Lemma solve_child_ranked (fuel : nat) (tt : gmap Z Z) (P : Position) (m depth : Z)
      (weak : bool) :
  valid P -> canWinNext P = false -> In m (legal_moves P) -> depth < 0 ->
  table_sound valid tt -> (cells_left P + 1 <= fuel)%nat ->
  exists r tt',
    solve fuel book (columnOrder WIDTH) tt (play P m) depth weak = Some (r, tt') /\
    table_sound valid tt' /\ ranked_as weak (move_value P m) (- r).
Proof.
  intros HP Hw Hm Hd Ht Hn.
  destruct (legal_move_child valid P m HP Hw Hm) as (Hv & _).
  pose proof (cells_left_play valid P m HP Hm) as Hc.
  destruct weak.
  - destruct (solve_weak_class fuel tt (play P m) depth Hv Hd Ht ltac:(lia))
      as (v & tt' & E & Ht' & H1 & H2 & H3).
    exists v, tt'. split; [assumption |]. split; [assumption |].
    unfold ranked_as, move_value. repeat split; lia.
  - destruct (solve_exact valid fuel book tt (play P m) depth Hv Hd Hbook Ht
                ltac:(lia)) as (tt' & E & Ht').
    exists (true_score (play P m)), tt'. repeat split; assumption.
Qed.

Lemma rank_moves_ok (fuel : nat) (P : Position) (depth : Z) (weak : bool) :
  valid P -> canWinNext P = false -> depth < 0 ->
  (cells_left P + 1 <= fuel)%nat ->
  forall moves tt recorded,
    (forall m, In m moves -> In m (legal_moves P)) ->
    table_sound valid tt ->
    exists extra tt',
      rank_moves fuel book (columnOrder WIDTH) P depth weak moves tt recorded =
        Some (recorded ++ extra, tt') /\
      table_sound valid tt' /\ map fst extra = moves /\
      Forall (fun e => ranked_as weak (move_value P (fst e)) (snd e)) extra.
Proof.
  intros HP Hw Hd Hn.
  induction moves as [| m rest IH]; intros tt recorded Hlegal Ht; cbn [rank_moves].
  - exists [], tt. rewrite app_nil_r. repeat split; auto.
  - pose proof (Hlegal m (or_introl eq_refl)) as Hm.
    destruct (solve_child_ranked fuel tt P m depth weak HP Hw Hm Hd Ht Hn)
      as (r & tt1 & -> & Ht1 & Hr).
    pose proof Hm as Hm'. apply legal_moves_In in Hm'.
    destruct Hm' as (col & Hc & Em & Hnz). rewrite Em in *.
    rewrite (getMoveColumn_inverts P col Hmasks Hc Hnz).
    destruct (IH tt1 (recorded ++ [(move_in P col, - r)])
                 (fun m' H => Hlegal m' (or_intror H)) Ht1)
      as (extra & tt2 & -> & Ht2 & Hfst & Hall).
    exists ((move_in P col, - r) :: extra), tt2.
    rewrite <- app_assoc. cbn [app].
    split; [reflexivity |]. split; [assumption |]. split.
    + cbn. rewrite Hfst. reflexivity.
    + constructor; assumption.
Qed.

Lemma getBestMove_ranked (fuel : nat) (tt : gmap Z Z) (P : Position) (depth : Z)
      (weak : bool) :
  valid P -> canWinNext P = false -> nbMoves P < WIDTH * HEIGHT ->
  depth < 0 -> table_sound valid tt -> (cells_left P + 1 <= fuel)%nat ->
  exists col tt' w,
    getBestMove fuel book (columnOrder WIDTH) tt P depth weak = Some (col, tt') /\
    table_sound valid tt' /\ In col columns /\ move_in P col <> 0 /\
    ranked_as weak (move_value P (move_in P col)) w /\
    forall m, In m (legal_moves P) ->
              exists w', ranked_as weak (move_value P m) w' /\ w' <= w.
Proof.
  intros HP Hw Hroom Hd Ht Hn.
  assert (Hsome : exists m, In m (legal_moves P)).
  { pose proof (move_exists P HP Hroom) as Hne.
    destruct (legal_moves P) as [| m ms]; [congruence |].
    exists m. left. reflexivity. }
  destruct Hsome as (m0 & Hm0).
  assert (Hvisit : forall m,
             In m (MoveSorter_visit (sorter_fill P (possible P) (columnOrder WIDTH)))
             <-> In m (legal_moves P)).
  { intros m. rewrite sorter_visit_In, legal_moves_In. unfold move_in.
    split; intros (col & Hc & E & Hnz); exists col; repeat split; auto.
    - apply columns_In, columnOrder_In. assumption.
    - apply columnOrder_In, columns_In. assumption. }
  unfold getBestMove. cbv zeta.
  destruct (possible P =? 0) eqn:E0.
  { exfalso. apply Z.eqb_eq in E0.
    apply legal_moves_In in Hm0. destruct Hm0 as (col & _ & Em & Hnz).
    unfold move_in in Em. rewrite E0, Z.land_0_l in Em. congruence. }
  destruct (rank_moves_ok fuel P depth weak HP Hw Hd Hn
              (MoveSorter_visit (sorter_fill P (possible P) (columnOrder WIDTH)))
              tt [] (fun m H => proj1 (Hvisit m) H) Ht)
    as (extra & tt' & -> & Ht' & Hfst & Hall).
  cbn [app].
  assert (Hex : extra <> []).
  { intros ->. cbn in Hfst.
    apply Hvisit in Hm0. rewrite <- Hfst in Hm0. destruct Hm0. }
  destruct (MoveChooser_best_max extra Hex) as (best & w & -> & Hin & Hmax).
  assert (Hbest : In best (legal_moves P)).
  { apply Hvisit. rewrite <- Hfst. apply in_map_iff. exists (best, w). auto. }
  pose proof Hbest as Hb'. apply legal_moves_In in Hb'.
  destruct Hb' as (col & Hc & Eb & Hnz). rewrite Eb in *.
  rewrite (getMoveColumn_inverts P col Hmasks Hc Hnz).
  rewrite List.Forall_forall in Hall.
  exists col, tt', w. repeat split; auto.
  - apply (Hall (move_in P col, w) Hin).
  - intros m Hm. apply Hvisit in Hm. rewrite <- Hfst in Hm.
    apply in_map_iff in Hm. destruct Hm as ([m' w'] & Em & Hin').
    cbn in Em. subst m'. exists w'. split; [apply (Hall (m, w') Hin') |].
    apply (Hmax m w' Hin').
Qed.
End BestMoveContract.

Section BestMoveClaims.
Context {PA : PositionAPI} {BT : BookTableAPI}.
Context (valid : Position -> Prop) {L : PositionLaws valid}.

(** X13: [getBestMove] with [weak] false returns an optimal move.  On a
    position with a free cell in which nobody has won and the side to
    move cannot win at once, with disjoint column masks, an unlimited
    depth budget and sound caches, it returns a playable column whose
    move has the score of the position as its value, and it leaves the
    table sound. *)
Theorem getBestMove_optimal
        (fuel : nat) (book : OpeningBook) (tt : gmap Z Z) (P : Position)
        (depth : Z) :
  valid P -> canWinNext P = false -> nbMoves P < WIDTH * HEIGHT ->
  disjoint_masks -> depth < 0 ->
  book_sound valid book -> table_sound valid tt ->
  (cells_left P + 1 <= fuel)%nat ->
  exists col tt',
    getBestMove fuel book (columnOrder WIDTH) tt P depth false = Some (col, tt') /\
    0 <= col < WIDTH /\ move_in P col <> 0 /\
    move_value P (move_in P col) = true_score P /\
    table_sound valid tt'.
Proof.
  intros HP Hw Hroom Hmasks Hd Hb Ht Hn.
  destruct (getBestMove_ranked valid book Hb Hmasks fuel tt P depth false
              HP Hw Hroom Hd Ht Hn)
    as (col & tt' & w & E & Ht' & Hc & Hnz & Hr & Hmax).
  exists col, tt'. split; [assumption |].
  split; [apply columns_In; assumption |]. split; [assumption |].
  split; [| assumption].
  cbn [ranked_as] in Hr. subst w.
  assert (Hlegal : In (move_in P col) (legal_moves P)).
  { apply legal_moves_In. exists col. auto. }
  pose proof (move_value_le valid P _ HP Hw Hlegal) as Hle.
  destruct (true_score_reached valid P HP Hw) as (m & Hm & Em).
  { intros E0. rewrite E0 in Hlegal. destruct Hlegal. }
  destruct (Hmax m Hm) as (w' & Hw' & Hle'). cbn [ranked_as] in Hw'. lia.
Qed.

(** X14: [getBestMove] with [weak] true keeps the outcome.  Under the
    same conditions it returns a playable column whose move wins when
    the position is won and draws when the position is drawn. *)
Theorem getBestMove_weak_keeps_outcome
        (fuel : nat) (book : OpeningBook) (tt : gmap Z Z) (P : Position)
        (depth : Z) :
  valid P -> canWinNext P = false -> nbMoves P < WIDTH * HEIGHT ->
  disjoint_masks -> depth < 0 ->
  book_sound valid book -> table_sound valid tt ->
  (cells_left P + 1 <= fuel)%nat ->
  exists col tt',
    getBestMove fuel book (columnOrder WIDTH) tt P depth true = Some (col, tt') /\
    0 <= col < WIDTH /\ move_in P col <> 0 /\
    (0 < true_score P -> 0 < move_value P (move_in P col)) /\
    (true_score P = 0 -> move_value P (move_in P col) = 0) /\
    table_sound valid tt'.
Proof.
  intros HP Hw Hroom Hmasks Hd Hb Ht Hn.
  destruct (getBestMove_ranked valid book Hb Hmasks fuel tt P depth true
              HP Hw Hroom Hd Ht Hn)
    as (col & tt' & w & E & Ht' & Hc & Hnz & Hr & Hmax).
  exists col, tt'. split; [assumption |].
  split; [apply columns_In; assumption |]. split; [assumption |].
  assert (Hlegal : In (move_in P col) (legal_moves P)).
  { apply legal_moves_In. exists col. auto. }
  pose proof (move_value_le valid P _ HP Hw Hlegal) as Hle.
  destruct (true_score_reached valid P HP Hw) as (m & Hm & Em).
  { intros E0. rewrite E0 in Hlegal. destruct Hlegal. }
  destruct (Hmax m Hm) as (w' & Hw' & Hle').
  cbn [ranked_as] in Hr, Hw'.
  destruct Hr as (R1 & R2 & R3). destruct Hw' as (W1 & W2 & W3).
  repeat split; try assumption.
  - intros Hpos.
    destruct (Z_lt_le_dec 0 (move_value P (move_in P col))) as [? | Hneg];
      [assumption |].
    destruct (Z.eq_dec (move_value P (move_in P col)) 0); lia.
  - intros Hzero.
    destruct (Z.eq_dec (move_value P (move_in P col)) 0); lia.
Qed.
End BestMoveClaims.

(** ** The further properties on concrete positions *)

Lemma negamax_depth_bounded_witness :
  exists v tt',
    @negamax Connect4x2 NoBookTable 3 (OpeningBook_empty 4 2) (columnOrder 4) ∅
             Bitboard.empty (-1) 1 2 = Some (v, tt').
Proof.
  apply (@negamax_depth_bounded Connect4x2 NoBookTable _ Connect4x2_laws).
  - exact empty_reachable.
  - reflexivity.
  - lia.
  - cbn. discriminate.
  - lia.
  - cbn. lia.
Defined.

Lemma negamax_depth_zero_reads_only_witness :
  exists v,
    @negamax Connect4 NoBookTable 1 (OpeningBook_empty 7 6) (columnOrder 7) ∅
             Bitboard.empty (-1) 1 0 = Some (v, ∅).
Proof.
  apply (@negamax_depth_zero_reads_only Connect4 NoBookTable).
  - lia.
  - reflexivity.
  - cbn. discriminate.
Defined.

Lemma solve_probe_count_witness :
  exists lo hi tt',
    @solve_loop 2 (fun tt med => Some (med + 1, tt)) ∅ (-1) 1 = Some (lo, hi, tt').
Proof.
  apply (@solve_probe_count Connect4 (fun tt med => Some (med + 1, tt)) ∅
                            Bitboard.empty true).
  - intros tt med. eauto.
  - cbn. lia.
Defined.

Lemma negamax_fail_soft_bounds_witness :
  exists v tt',
    @negamax Connect4x2 NoBookTable 9 (OpeningBook_empty 4 2) (columnOrder 4)
             ∅ Bitboard.empty 0 1 (-1) = Some (v, tt') /\
    v = 0.
Proof.
  destruct (@negamax_fail_soft_bounds Connect4x2 NoBookTable _ Connect4x2_laws
              9 (OpeningBook_empty 4 2) ∅ Bitboard.empty 0 1 (-1))
    as (v & tt' & E & H1 & _).
  - exact empty_reachable.
  - reflexivity.
  - lia.
  - lia.
  - apply (@book_miss_sound Connect4x2 NoBookTable _ Connect4x2_laws). cbn. lia.
  - apply (@table_sound_empty Connect4x2).
  - vm_compute. lia.
  - exists v, tt'. split; [exact E |].
    assert (Hs : @true_score Connect4x2 Bitboard.empty = 0) by (vm_compute; reflexivity).
    rewrite Hs in H1. lia.
Defined.

Lemma reachable_by_check (P : Bitboard.board) (l : list Bitboard.board) :
  existsb (Bitboard.board_eqb P) l = true -> In P l.
Proof.
  intros H. apply existsb_exists in H. destruct H as (Q & HQ & E).
  apply board_eqb_eq in E. subst Q. exact HQ.
Qed.

(** One cell is left on the 4 by 2 board. *)
Lemma negamax_decided_early_witness :
  @negamax Connect4x2 NoBookTable 1 (OpeningBook_empty 4 2) (columnOrder 4) ∅
           (Bitboard.play_cols 4 2 [0; 1; 2; 3; 3; 2; 1]) (-5) 5 3 = Some (0, ∅).
Proof.
  destruct (@negamax_decided_early Connect4x2 NoBookTable _ Connect4x2_laws
              0 (OpeningBook_empty 4 2) (columnOrder 4) ∅
              (Bitboard.play_cols 4 2 [0; 1; 2; 3; 3; 2; 1]) (-5) 5 3)
    as (E & _ & H0).
  - apply reachable_by_check. vm_compute. reflexivity.
  - reflexivity.
  - lia.
  - right. vm_compute. discriminate.
  - rewrite E. rewrite H0; [reflexivity |]. vm_compute. discriminate.
Defined.

(** Byte 60 is a lower bound of 4 with the constants of the 7 by 6 board. *)
Lemma table_entry_narrows_witness :
  @narrow_by_table Connect4 60 0 3 = Cut 4.
Proof.
  pose proof (@table_entry_narrows Connect4 60 0 3 ltac:(lia)) as H.
  destruct (@narrow_by_table Connect4 60 0 3) as [v | a b] eqn:E.
  - destruct H as (_ & [(_ & Hv & _) | (Hl & _)]).
    + rewrite Hv. reflexivity.
    + vm_compute in Hl. discriminate.
  - vm_compute in E. discriminate.
Defined.

Lemma Connect4_masks : @disjoint_masks Connect4.
Proof. apply (@check_masks_sound Connect4). vm_compute. reflexivity. Qed.

Lemma Connect4x2_masks : @disjoint_masks Connect4x2.
Proof. apply (@check_masks_sound Connect4x2). vm_compute. reflexivity. Qed.

Lemma getMoveColumn_move_in_witness :
  @getMoveColumn Connect4 (@move_in Connect4 Bitboard.empty 3) = Some 3.
Proof.
  refine (proj1 (@getMoveColumn_move_in Connect4 Bitboard.empty 3 _ _ _)).
  - exact Connect4_masks.
  - vm_compute. tauto.
  - vm_compute. discriminate.
Defined.

Lemma getBestMove_optimal_witness :
  exists col tt',
    @getBestMove Connect4x2 NoBookTable 10 (OpeningBook_empty 4 2) (columnOrder 4) ∅
                 Bitboard.empty (-1) false = Some (col, tt') /\
    0 <= col < 4.
Proof.
  destruct (@getBestMove_optimal Connect4x2 NoBookTable _ Connect4x2_laws
              10 (OpeningBook_empty 4 2) ∅ Bitboard.empty (-1))
    as (col & tt' & E & Hc & _).
  - exact empty_reachable.
  - reflexivity.
  - cbn. lia.
  - exact Connect4x2_masks.
  - lia.
  - apply (@book_miss_sound Connect4x2 NoBookTable _ Connect4x2_laws). cbn. lia.
  - apply (@table_sound_empty Connect4x2).
  - vm_compute. lia.
  - exists col, tt'. split; [exact E | exact Hc].
Defined.

Lemma getBestMove_weak_keeps_outcome_witness :
  exists col tt',
    @getBestMove Connect4x2 NoBookTable 10 (OpeningBook_empty 4 2) (columnOrder 4) ∅
                 Bitboard.empty (-1) true = Some (col, tt') /\
    0 <= col < 4.
Proof.
  destruct (@getBestMove_weak_keeps_outcome Connect4x2 NoBookTable _ Connect4x2_laws
              10 (OpeningBook_empty 4 2) ∅ Bitboard.empty (-1))
    as (col & tt' & E & Hc & _).
  - exact empty_reachable.
  - reflexivity.
  - cbn. lia.
  - exact Connect4x2_masks.
  - lia.
  - apply (@book_miss_sound Connect4x2 NoBookTable _ Connect4x2_laws). cbn. lia.
  - apply (@table_sound_empty Connect4x2).
  - vm_compute. lia.
  - exists col, tt'. split; [exact E | exact Hc].
Defined.
